(** * Online Ludo server: rules engine, game state machine, matchmaking, reconnection

    A shallow embedding of the TypeScript server core
    ([utils/gameRules.ts], [services/GameService.ts],
    [services/MatchmakingService.ts], [services/ReconnectionService.ts] and the
    socket handlers that drive them), with the properties of its specification
    stated and settled against the embedding.

    Conventions of the embedding:
    - JS strings are [string]; [===] on strings is [String.eqb].
    - Counts and indices ([rank], [currentPlayerIndex], dice values,
      [consecutiveSixes]) are [nat]; [Array.prototype.indexOf] and
      [findIndex] return [option nat], [None] standing for [-1].
    - [arr[i]] is stdpp's list lookup [arr !! i], [None] standing for
      [undefined].
    - The Redis store is a finite map per kind of record; expiry by TTL is not
      modelled.
    - [new Date()] and [Math.random()] are arguments of the operations that
      call them. *)

From Stdlib Require Import ZArith Lia Ascii String DecimalString.
From stdpp Require Import base list strings gmap.

Local Open Scope string_scope.

(** ** models/Player.ts, models/GameState.ts, models/Token.ts *)

Inductive PlayerColor := RED | BLUE | GREEN | YELLOW.

Inductive ConnectionStatus := CONNECTED | DISCONNECTED | RECONNECTING.

Inductive GamePhase := WAITING | ROLLING | MOVING | FINISHED.

#[global] Instance PlayerColor_eq_dec : EqDecision PlayerColor.
Proof. solve_decision. Defined.

#[global] Instance GamePhase_eq_dec : EqDecision GamePhase.
Proof. solve_decision. Defined.

#[global] Instance ConnectionStatus_eq_dec : EqDecision ConnectionStatus.
Proof. solve_decision. Defined.

Record Player := mkPlayer {
  playerId : string;
  playerName : string;
  color : PlayerColor;
  connectionStatus : ConnectionStatus;
  isSpectator : bool;
  rank : nat
}.

Record PlayerSession := mkPlayerSession {
  ps_playerId : string;
  ps_playerName : string;
  ps_roomCode : option string;
  ps_socketId : string;
  ps_lastActivity : nat
}.

Record TokenPosition := mkTokenPosition {
  tokenId : string;
  positionId : string
}.

Record PlayerRank := mkPlayerRank {
  rk_playerId : string;
  rk_rank : nat;
  rk_finishedAt : nat
}.

(** [tokenPositions] is a JS object keyed by colour; [Object.entries] walks it
    in insertion order, so it is kept as an association list. *)
Abbreviation TokenTable := (list (PlayerColor * list TokenPosition)).

Record GameState := mkGameState {
  roomCode : string;
  players : list Player;
  currentPlayerIndex : nat;
  diceValue : option nat;
  tokenPositions : TokenTable;
  phase : GamePhase;
  rankings : list PlayerRank;
  consecutiveSixes : nat;
  startedAt : option nat;
  finishedAt : option nat
}.

Record MoveResult := mkMoveResult {
  mr_success : bool;
  mr_tokenId : string;
  fromPosition : string;
  toPosition : string;
  capturedTokenId : option string;
  extraTurn : bool
}.

(** How a call of an [async] function ends. It returns a value, or it stops
    otherwise: it throws (a [TypeError] on a property of [undefined]), its
    loop never ends, or it has written [undefined] into a field declared
    [string], where the embedding stops following the program. *)
Inductive Abnormal := Threw | Diverged | IllTyped.

Inductive Outcome (A : Type) :=
  | Returned (a : A)
  | Stopped (why : Abnormal).
Arguments Returned {A} a.
Arguments Stopped {A} why.

(** ** JS helpers *)

Definition endsWith (s suffix : string) : bool :=
  let n := String.length s in
  let m := String.length suffix in
  (m <=? n)%nat && String.eqb (String.substring (n - m) m s) suffix.

Definition startsWith (s pre : string) : bool := String.prefix pre s.

(** [s.charAt(s.length - 1)]; the empty string when [s] is empty. *)
Definition lastChar (s : string) : option ascii :=
  match String.length s with
  | O => None
  | S k => String.get k s
  end.

(** [parseInt] of one character. *)
Definition parseDigit (c : option ascii) : option nat :=
  match c with
  | Some "0"%char => Some 0
  | Some "1"%char => Some 1
  | Some "2"%char => Some 2
  | Some "3"%char => Some 3
  | Some "4"%char => Some 4
  | Some "5"%char => Some 5
  | Some "6"%char => Some 6
  | Some "7"%char => Some 7
  | Some "8"%char => Some 8
  | Some "9"%char => Some 9
  | _ => None
  end.

Fixpoint indexOf_from (k : nat) (x : string) (l : list string) : option nat :=
  match l with
  | [] => None
  | y :: l' => if String.eqb y x then Some k else indexOf_from (S k) x l'
  end.

Definition indexOf (x : string) (l : list string) : option nat := indexOf_from 0 x l.

Fixpoint findIndex_from {A} (k : nat) (f : A -> bool) (l : list A) : option nat :=
  match l with
  | [] => None
  | y :: l' => if f y then Some k else findIndex_from (S k) f l'
  end.

Definition findIndex {A} (f : A -> bool) (l : list A) : option nat := findIndex_from 0 f l.

(** ** utils/gameRules.ts *)

Module Rules.

Definition TOKEN_PATHS (c : PlayerColor) : list string :=
  match c with
  | BLUE =>
    [ "B04"; "B03"; "B02"; "B01"; "B00"; "R52"; "R42"; "R32"; "R22"; "R12";
      "R02"; "R01"; "R00"; "R10"; "R20"; "R30"; "R40"; "R50"; "G05"; "G04";
      "G03"; "G02"; "G01"; "G00"; "G10"; "G20"; "G21"; "G22"; "G23"; "G24";
      "G25"; "Y00"; "Y10"; "Y20"; "Y30"; "Y40"; "Y50"; "Y51"; "Y52"; "Y42";
      "Y32"; "Y22"; "Y12"; "Y02"; "B20"; "B21"; "B22"; "B23"; "B24"; "B25";
      "B15"; "B14"; "B13"; "B12"; "B11"; "B10"; "BF" ]
  | GREEN =>
    [ "G21"; "G22"; "G23"; "G24"; "G25"; "Y00"; "Y10"; "Y20"; "Y30"; "Y40";
      "Y50"; "Y51"; "Y52"; "Y42"; "Y32"; "Y22"; "Y12"; "Y02"; "B20"; "B21";
      "B22"; "B23"; "B24"; "B25"; "B15"; "B05"; "B04"; "B03"; "B02"; "B01";
      "B00"; "R52"; "R42"; "R32"; "R22"; "R12"; "R02"; "R01"; "R00"; "R10";
      "R20"; "R30"; "R40"; "R50"; "G05"; "G04"; "G03"; "G02"; "G01"; "G00";
      "G10"; "G11"; "G12"; "G13"; "G14"; "G15"; "GF" ]
  | RED =>
    [ "R10"; "R20"; "R30"; "R40"; "R50"; "G05"; "G04"; "G03"; "G02"; "G01";
      "G00"; "G10"; "G20"; "G21"; "G22"; "G23"; "G24"; "G25"; "Y00"; "Y10";
      "Y20"; "Y30"; "Y40"; "Y50"; "Y51"; "Y52"; "Y42"; "Y32"; "Y22"; "Y12";
      "Y02"; "B20"; "B21"; "B22"; "B23"; "B24"; "B25"; "B15"; "B05"; "B04";
      "B03"; "B02"; "B01"; "B00"; "R52"; "R42"; "R32"; "R22"; "R12"; "R02";
      "R01"; "R11"; "R21"; "R31"; "R41"; "R51"; "RF" ]
  | YELLOW =>
    [ "Y42"; "Y32"; "Y22"; "Y12"; "Y02"; "B20"; "B21"; "B22"; "B23"; "B24";
      "B25"; "B15"; "B05"; "B04"; "B03"; "B02"; "B01"; "B00"; "R52"; "R42";
      "R32"; "R22"; "R12"; "R02"; "R01"; "R00"; "R10"; "R20"; "R30"; "R40";
      "R50"; "G05"; "G04"; "G03"; "G02"; "G01"; "G00"; "G10"; "G20"; "G21";
      "G22"; "G23"; "G24"; "G25"; "Y00"; "Y10"; "Y20"; "Y30"; "Y40"; "Y50";
      "Y51"; "Y41"; "Y31"; "Y21"; "Y11"; "Y01"; "YF" ]
  end.

Definition BASE_POSITIONS (c : PlayerColor) : list string :=
  match c with
  | BLUE => [ "B1"; "B2"; "B3"; "B4" ]
  | GREEN => [ "G1"; "G2"; "G3"; "G4" ]
  | RED => [ "R1"; "R2"; "R3"; "R4" ]
  | YELLOW => [ "Y1"; "Y2"; "Y3"; "Y4" ]
  end.

Definition START_POSITIONS (c : PlayerColor) : string :=
  match c with
  | BLUE => "B04"
  | GREEN => "G21"
  | RED => "R10"
  | YELLOW => "Y42"
  end.

Definition HOME_POSITIONS (c : PlayerColor) : string :=
  match c with
  | BLUE => "BF"
  | GREEN => "GF"
  | RED => "RF"
  | YELLOW => "YF"
  end.

Definition SAFE_SPOTS : list string :=
  [ "B04"; "B23"; "R22"; "R10"; "G02"; "G21"; "Y30"; "Y42" ].

Definition isTokenInBase (positionId : string) : bool :=
  (String.length positionId =? 2)%nat && negb (endsWith positionId "F").

Definition isTokenOnBoard (positionId : string) : bool :=
  (String.length positionId =? 3)%nat.

Definition isTokenInHome (positionId : string) : bool :=
  endsWith positionId "F".

Definition getTokenPath (c : PlayerColor) : list string := TOKEN_PATHS c.

(** The result object [{ valid, targetPosition?, reason? }]: [targetPosition]
    is set exactly when [valid] is true, [reason] exactly when it is false. *)
Inductive MoveValidation :=
  | MoveOk (targetPosition : string)
  | MoveBad (reason : string).

Definition valid (v : MoveValidation) : bool :=
  match v with MoveOk _ => true | MoveBad _ => false end.

Definition canMoveToken (tokenPosition : string) (dice : nat) (c : PlayerColor)
  : MoveValidation :=
  if isTokenInBase tokenPosition then
    if (dice =? 6)%nat then MoveOk (START_POSITIONS c)
    else MoveBad "Need a 6 to move out of base"
  else
    let path := getTokenPath c in
    match indexOf tokenPosition path with
    | None => MoveBad "Invalid token position"
    | Some currentIndex =>
      let targetIndex := currentIndex + dice in
      if (length path <=? targetIndex)%nat then MoveBad "Move exceeds path length"
      else MoveOk (default "" (path !! targetIndex))
    end.

Definition isSafeSpot (positionId : string) : bool :=
  existsb (String.eqb positionId) SAFE_SPOTS.

Record Collision := mkCollision {
  captured : bool;
  capturedTokens : list TokenPosition
}.

(** The tokens of the colours other than the attacker's that stand on
    [targetPosition], in [Object.entries] order. *)
Fixpoint tokensAt (targetPosition : string) (attackerColor : PlayerColor)
  (all : TokenTable) : list TokenPosition :=
  match all with
  | [] => []
  | (c, tokens) :: rest =>
    if decide (c = attackerColor) then tokensAt targetPosition attackerColor rest
    else (filter (fun t => positionId t = targetPosition) tokens
            ++ tokensAt targetPosition attackerColor rest)%list
  end.

Definition detectCollision (targetPosition : string) (attackerColor : PlayerColor)
  (all : TokenTable) : Collision :=
  if isSafeSpot targetPosition then mkCollision false []
  else
    let capturedTokens := tokensAt targetPosition attackerColor all in
    mkCollision (0 <? length capturedTokens)%nat capturedTokens.

Definition checkWinCondition (c : PlayerColor) (tokens : list TokenPosition) : bool :=
  let homePosition := HOME_POSITIONS c in
  let tokensInHome := filter (fun t => positionId t = homePosition) tokens in
  (length tokensInHome =? 4)%nat.

(** [basePositions[tokenNumber - 1]]: [None] is [undefined] (the last
    character is not a digit, or the index is outside the four slots). *)
Definition getBasePosition (tokenId : string) (c : PlayerColor) : option string :=
  let basePositions := BASE_POSITIONS c in
  match parseDigit (lastChar tokenId) with
  | Some (S k) => basePositions !! k
  | _ => None
  end.

(** [color.charAt(0).toUpperCase()] of the enum's string value. *)
Definition colorPrefix (c : PlayerColor) : string :=
  match c with
  | RED => "R"
  | BLUE => "B"
  | GREEN => "G"
  | YELLOW => "Y"
  end.

Definition isValidTokenId (tokenId : string) (c : PlayerColor) : bool :=
  startsWith tokenId (colorPrefix c ++ "T") && (String.length tokenId =? 3)%nat.

End Rules.

(** ** services/GameService.ts *)

Module Game.
Import Rules.

Definition GAME_STATE_PREFIX : string := "game:".

(** The game states held in Redis, by key. *)
Abbreviation Store := (gmap string GameState).

Definition gameKey (room : string) : string := GAME_STATE_PREFIX ++ room.

Definition getGameState (st : Store) (room : string) : option GameState :=
  st !! gameKey room.

Definition saveGameState (st : Store) (gs : GameState) : Store :=
  <[gameKey (roomCode gs) := gs]> st.

Definition deleteGameState (st : Store) (room : string) : Store :=
  delete (gameKey room) st.

(** *** Field updates of the in-memory object *)

Definition set_players (ps : list Player) (gs : GameState) : GameState :=
  mkGameState (roomCode gs) ps (currentPlayerIndex gs) (diceValue gs)
    (tokenPositions gs) (phase gs) (rankings gs) (consecutiveSixes gs)
    (startedAt gs) (finishedAt gs).

Definition set_currentPlayerIndex (i : nat) (gs : GameState) : GameState :=
  mkGameState (roomCode gs) (players gs) i (diceValue gs)
    (tokenPositions gs) (phase gs) (rankings gs) (consecutiveSixes gs)
    (startedAt gs) (finishedAt gs).

Definition set_diceValue (d : option nat) (gs : GameState) : GameState :=
  mkGameState (roomCode gs) (players gs) (currentPlayerIndex gs) d
    (tokenPositions gs) (phase gs) (rankings gs) (consecutiveSixes gs)
    (startedAt gs) (finishedAt gs).

Definition set_tokenPositions (t : TokenTable) (gs : GameState) : GameState :=
  mkGameState (roomCode gs) (players gs) (currentPlayerIndex gs) (diceValue gs)
    t (phase gs) (rankings gs) (consecutiveSixes gs)
    (startedAt gs) (finishedAt gs).

Definition set_phase (p : GamePhase) (gs : GameState) : GameState :=
  mkGameState (roomCode gs) (players gs) (currentPlayerIndex gs) (diceValue gs)
    (tokenPositions gs) p (rankings gs) (consecutiveSixes gs)
    (startedAt gs) (finishedAt gs).

Definition set_rankings (r : list PlayerRank) (gs : GameState) : GameState :=
  mkGameState (roomCode gs) (players gs) (currentPlayerIndex gs) (diceValue gs)
    (tokenPositions gs) (phase gs) r (consecutiveSixes gs)
    (startedAt gs) (finishedAt gs).

Definition set_consecutiveSixes (n : nat) (gs : GameState) : GameState :=
  mkGameState (roomCode gs) (players gs) (currentPlayerIndex gs) (diceValue gs)
    (tokenPositions gs) (phase gs) (rankings gs) n
    (startedAt gs) (finishedAt gs).

Definition set_finishedAt (t : option nat) (gs : GameState) : GameState :=
  mkGameState (roomCode gs) (players gs) (currentPlayerIndex gs) (diceValue gs)
    (tokenPositions gs) (phase gs) (rankings gs) (consecutiveSixes gs)
    (startedAt gs) t.

Definition set_rank (r : nat) (p : Player) : Player :=
  mkPlayer (playerId p) (playerName p) (color p) (connectionStatus p)
    (isSpectator p) r.

Definition set_connectionStatus (s : ConnectionStatus) (p : Player) : Player :=
  mkPlayer (playerId p) (playerName p) (color p) s (isSpectator p) (rank p).

Definition set_positionId (pos : string) (t : TokenPosition) : TokenPosition :=
  mkTokenPosition (tokenId t) pos.

(** *** The token table as a JS object *)

(** [tokenPositions[c]] *)
Fixpoint tableGet (c : PlayerColor) (tbl : TokenTable) : option (list TokenPosition) :=
  match tbl with
  | [] => None
  | (c', tokens) :: rest => if decide (c' = c) then Some tokens else tableGet c rest
  end.

(** [tokenPositions[c] = tokens]: an existing key keeps its place, a new key
    goes last. *)
Fixpoint tableSet (c : PlayerColor) (tokens : list TokenPosition) (tbl : TokenTable)
  : TokenTable :=
  match tbl with
  | [] => [(c, tokens)]
  | (c', old) :: rest =>
    if decide (c' = c) then (c', tokens) :: rest
    else (c', old) :: tableSet c tokens rest
  end.

Definition hasTokenId (id : string) (t : TokenPosition) : bool :=
  String.eqb (tokenId t) id.

(** *** initializeGame *)

Definition natToString (n : nat) : string :=
  DecimalString.NilZero.string_of_uint (Nat.to_uint n).

Definition baseTokens (c : PlayerColor) : list TokenPosition :=
  imap (fun index positionId =>
          mkTokenPosition (colorPrefix c ++ "T" ++ natToString (index + 1)) positionId)
       (BASE_POSITIONS c).

Definition initialTokenPositions (ps : list Player) : TokenTable :=
  fold_left (fun tbl player => tableSet (color player) (baseTokens (color player)) tbl)
            ps [].

Definition initialGameState (room : string) (ps : list Player) (now : nat) : GameState :=
  mkGameState room ps 0 None (initialTokenPositions ps) ROLLING [] 0 (Some now) None.

Definition initializeGame (st : Store) (room : string) (ps : list Player) (now : nat)
  : Store * GameState :=
  let gameState := initialGameState room ps now in
  (saveGameState st gameState, gameState).

(** *** switchTurn *)

(** The [do ... while] scan of [switchTurn]. Each unit of fuel is one
    iteration of the loop body; [Diverged] is returned when the fuel runs
    out. With no players [(i + 1) % 0] is [NaN] and [players[NaN].rank]
    throws: there the lookup below finds nothing, whatever index [mod]
    gives. *)
Fixpoint scanNext (fuel : nat) (ps : list Player) (current next : nat) : Outcome nat :=
  match fuel with
  | O => Stopped Diverged
  | S fuel' =>
    let next' := (next + 1) mod (length ps) in
    match ps !! next' with
    | None => Stopped Threw
    | Some p =>
      if (0 <? rank p)%nat && negb (next' =? current)%nat
      then scanNext fuel' ps current next'
      else Returned next'
    end
  end.

(** The scan visits the indices cyclically, so it either stops within
    [length ps] iterations or never (lemma [scanNext_fuel_enough]). *)
Definition nextPlayerIndex (gs : GameState) : Outcome nat :=
  scanNext (S (length (players gs))) (players gs)
           (currentPlayerIndex gs) (currentPlayerIndex gs).

Definition turnSwitched (next : nat) (gs : GameState) : GameState :=
  set_consecutiveSixes 0
    (set_phase ROLLING (set_diceValue None (set_currentPlayerIndex next gs))).

Definition switchTurn (st : Store) (room : string)
  : Store * Outcome (option GameState) :=
  match getGameState st room with
  | None => (st, Returned None)
  | Some gameState =>
    match nextPlayerIndex gameState with
    | Returned next =>
      let gameState' := turnSwitched next gameState in
      (saveGameState st gameState', Returned (Some gameState'))
    | Stopped why => (st, Stopped why)
    end
  end.

(** *** rollDice *)

Record RollResponse := mkRollResponse {
  roll_success : bool;
  roll_diceValue : option nat;
  roll_error : option string;
  skipTurn : option bool
}.

Definition rollFailed (e : string) : RollResponse :=
  mkRollResponse false None (Some e) None.

Definition rolled (dice : nat) (skip : bool) : RollResponse :=
  mkRollResponse true (Some dice) None (Some skip).

(** [for (const token of gameState.tokenPositions[color])]: iterating
    [undefined] throws, whence the [option]. *)
Definition checkValidMoves (gs : GameState) (c : PlayerColor) (dice : nat) : option bool :=
  match tableGet c (tokenPositions gs) with
  | None => None
  | Some playerTokens =>
    Some (existsb (fun token => valid (canMoveToken (positionId token) dice c))
                  playerTokens)
  end.

(** The turn is handed over by [switchTurn], which reloads the state from the
    store: what [rollDice] changed in its own copy is dropped. *)
Definition skipByRoll (st : Store) (room : string) (dice : nat)
  : Store * Outcome RollResponse :=
  match switchTurn st room with
  | (st', Returned _) => (st', Returned (rolled dice true))
  | (st', Stopped why) => (st', Stopped why)
  end.

(** [dice] is the value of [Math.floor(Math.random() * 6) + 1]. *)
Definition rollDice (st : Store) (room pid : string) (dice : nat)
  : Store * Outcome RollResponse :=
  match getGameState st room with
  | None => (st, Returned (rollFailed "Game not found"))
  | Some gameState =>
    match players gameState !! currentPlayerIndex gameState with
    | None => (st, Stopped Threw)
    | Some currentPlayer =>
      if negb (String.eqb (playerId currentPlayer) pid)
      then (st, Returned (rollFailed "Not your turn"))
      else if negb (bool_decide (phase gameState = ROLLING))
      then (st, Returned (rollFailed "Cannot roll dice in current phase"))
      else
        let sixes := if (dice =? 6)%nat then S (consecutiveSixes gameState) else 0 in
        let gameState1 := set_consecutiveSixes sixes gameState in
        if (sixes =? 3)%nat then skipByRoll st room dice
        else
          match checkValidMoves gameState1 (color currentPlayer) dice with
          | None => (st, Stopped Threw)
          | Some false => skipByRoll st room dice
          | Some true =>
            let gameState2 := set_phase MOVING (set_diceValue (Some dice) gameState1) in
            (saveGameState st gameState2, Returned (rolled dice false))
          end
    end
  end.

(** *** moveToken *)

Record MoveResponse := mkMoveResponse {
  move_success : bool;
  move_result : option MoveResult;
  move_error : option string
}.

Definition moveFailed (e : string) : MoveResponse :=
  mkMoveResponse false None (Some e).

(** [tokens.find(t => t.tokenId === id)] together with the place of the
    object found, which the code then writes through. *)
Definition findToken (id : string) (tokens : list TokenPosition)
  : option (nat * TokenPosition) :=
  match findIndex (hasTokenId id) tokens with
  | None => None
  | Some i => match tokens !! i with
              | Some t => Some (i, t)
              | None => None
              end
  end.

(** The inner loop over [Object.entries(gameState.tokenPositions)] for
    one captured token: the first colour that holds a token of that id has
    it sent to [getBasePosition(id, colour)]. *)
Inductive BaseReset :=
  | WentToBase (tbl : TokenTable)
  | NoSuchToken
  | BaseUndefined.

Fixpoint sendToBase (id : string) (tbl : TokenTable) : BaseReset :=
  match tbl with
  | [] => NoSuchToken
  | (c, tokens) :: rest =>
    match findIndex (hasTokenId id) tokens with
    | Some tokenIndex =>
      match getBasePosition id c with
      | Some basePosition =>
        WentToBase ((c, alter (set_positionId basePosition) tokenIndex tokens) :: rest)
      | None => BaseUndefined
      end
    | None =>
      match sendToBase id rest with
      | WentToBase rest' => WentToBase ((c, tokens) :: rest')
      | NoSuchToken => NoSuchToken
      | BaseUndefined => BaseUndefined
      end
    end
  end.

(** The outer loop over [collision.capturedTokens]; the second component is
    [capturedTokenId], the id of the last token sent back. *)
Fixpoint resolveCaptures (capturedTokens : list TokenPosition) (tbl : TokenTable)
  (capturedId : option string) : option (TokenTable * option string) :=
  match capturedTokens with
  | [] => Some (tbl, capturedId)
  | capturedToken :: rest =>
    match sendToBase (tokenId capturedToken) tbl with
    | WentToBase tbl' => resolveCaptures rest tbl' (Some (tokenId capturedToken))
    | NoSuchToken => resolveCaptures rest tbl capturedId
    | BaseUndefined => None
    end
  end.

Definition isRanked (rs : list PlayerRank) (p : Player) : bool :=
  existsb (fun r => String.eqb (rk_playerId r) (playerId p)) rs.

(** The body of [if (hasWon) { ... }]. [idx] is the place of
    [currentPlayer] in [players]. *)
Definition recordWin (now idx : nat) (currentPlayer : Player) (gs : GameState)
  : GameState :=
  let rank := length (rankings gs) + 1 in
  let rankings1 :=
    (rankings gs ++ [mkPlayerRank (playerId currentPlayer) rank now])%list in
  let players1 := alter (set_rank rank) idx (players gs) in
  let gs1 := set_players players1 (set_rankings rankings1 gs) in
  if (length rankings1 =? length players1 - 1)%nat then
    let gs2 :=
      match findIndex (fun p => negb (isRanked rankings1 p)) players1 with
      | None => gs1
      | Some i =>
        match players1 !! i with
        | None => gs1
        | Some lastPlayer =>
          set_players (alter (set_rank (length players1)) i players1)
            (set_rankings
               (rankings1
                  ++ [mkPlayerRank (playerId lastPlayer) (length players1) now])%list
               gs1)
        end
      end in
    set_finishedAt (Some now) (set_phase FINISHED gs2)
  else gs1.

(** The part of [moveToken] after all its checks have passed. Both branches
    of [if (extraTurn)] assign [phase = ROLLING] and [diceValue = null]. *)
Definition applyMove (st : Store) (gs : GameState) (currentPlayer : Player)
  (dice : nat) (playerTokens : list TokenPosition) (tokenIndex : nat)
  (token : TokenPosition) (tid target : string) (now : nat)
  : Store * Outcome MoveResponse :=
  let c := color currentPlayer in
  let fromPos := positionId token in
  let moved :=
    tableSet c (alter (set_positionId target) tokenIndex playerTokens)
             (tokenPositions gs) in
  let collision := detectCollision target c moved in
  let resolved :=
    if captured collision then resolveCaptures (capturedTokens collision) moved None
    else Some (moved, None) in
  match resolved with
  | None => (st, Stopped IllTyped)
  | Some (tbl, capturedId) =>
    let gs1 := set_tokenPositions tbl gs in
    let hasWon := checkWinCondition c (default [] (tableGet c tbl)) in
    let gs2 :=
      if hasWon then recordWin now (currentPlayerIndex gs) currentPlayer gs1
      else gs1 in
    let extra := (dice =? 6)%nat || captured collision in
    let gs3 := set_diceValue None (set_phase ROLLING gs2) in
    let result := mkMoveResult true tid fromPos target capturedId extra in
    (saveGameState st gs3, Returned (mkMoveResponse true (Some result) None))
  end.

Definition moveToken (st : Store) (room pid tid target : string) (now : nat)
  : Store * Outcome MoveResponse :=
  match getGameState st room with
  | None => (st, Returned (moveFailed "Game not found"))
  | Some gameState =>
    match players gameState !! currentPlayerIndex gameState with
    | None => (st, Stopped Threw)
    | Some currentPlayer =>
      if negb (String.eqb (playerId currentPlayer) pid)
      then (st, Returned (moveFailed "Not your turn"))
      else if negb (bool_decide (phase gameState = MOVING))
      then (st, Returned (moveFailed "Cannot move token in current phase"))
      else
        match diceValue gameState with
        | None => (st, Returned (moveFailed "Dice not rolled"))
        | Some dice =>
          if negb (isValidTokenId tid (color currentPlayer))
          then (st, Returned (moveFailed "Invalid token"))
          else
            match tableGet (color currentPlayer) (tokenPositions gameState) with
            | None => (st, Stopped Threw)
            | Some playerTokens =>
              match findToken tid playerTokens with
              | None => (st, Returned (moveFailed "Token not found"))
              | Some (tokenIndex, token) =>
                match canMoveToken (positionId token) dice (color currentPlayer) with
                | MoveBad reason => (st, Returned (moveFailed reason))
                | MoveOk targetPosition =>
                  if negb (String.eqb targetPosition target)
                  then (st, Returned (moveFailed "Invalid target position"))
                  else applyMove st gameState currentPlayer dice playerTokens
                                 tokenIndex token tid target now
                end
              end
            end
        end
    end
  end.

End Game.

(** ** handlers/gameHandlers.ts *)

Module Handlers.
Import Game.

(** [move_token]: the move, then the turn switch the handler performs when
    the move gave no extra turn and the reloaded state is not finished. The
    spectator check and the broadcasts are left out. *)
Definition handleMoveToken (st : Store) (room pid tid target : string) (now : nat)
  : Store :=
  match moveToken st room pid tid target now with
  | (st1, Returned response) =>
    if move_success response then
      match getGameState st1 room, move_result response with
      | Some gameState, Some result =>
        if negb (extraTurn result) && negb (bool_decide (phase gameState = FINISHED))
        then fst (switchTurn st1 room)
        else st1
      | _, _ => st1
      end
    else st1
  | (st1, Stopped _) => st1
  end.

End Handlers.

(** ** services/MatchmakingService.ts *)

Module Matchmaking.

Record QueuedPlayer := mkQueuedPlayer {
  q_playerId : string;
  q_playerName : string;
  preferredPlayers : nat;
  timestamp : nat
}.

(** The sorted set [queue:matchmaking] as the list of its members in score
    order (what [zRange 0 -1] returns), and the [queue:player:<id>] entries. *)
Record Queue := mkQueue {
  members : list string;
  entries : gmap string QueuedPlayer
}.

(** The players read back, and the queue with the orphaned members removed. *)
Definition getQueuedPlayers (q : Queue) : Queue * list QueuedPlayer :=
  (mkQueue (filter (fun id => is_Some (entries q !! id)) (members q)) (entries q),
   omap (fun id => entries q !! id) (members q)).

Definition eligible (size : nat) (p : QueuedPlayer) : Prop :=
  size <= preferredPlayers p \/ preferredPlayers p = size.

#[global] Instance eligible_dec size p : Decision (eligible size p).
Proof. unfold eligible. apply _. Defined.

(** What the filter amounts to: the player asked for a game of at least
    [size] players. *)
Definition atLeast (size : nat) (p : QueuedPlayer) : Prop :=
  size <= preferredPlayers p.

#[global] Instance atLeast_dec size p : Decision (atLeast size p).
Proof. unfold atLeast. apply _. Defined.

Definition findMatchBySize (queued : list QueuedPlayer) (size : nat)
  : option (list QueuedPlayer) :=
  if (length queued <? size)%nat then None
  else
    let eligiblePlayers := filter (eligible size) queued in
    if (size <=? length eligiblePlayers)%nat then Some (take size eligiblePlayers)
    else None.

(** [findMatch] on the players that [getQueuedPlayers] returned. *)
Definition findMatch (queued : list QueuedPlayer) : option (list QueuedPlayer) :=
  if (length queued <? 2)%nat then None
  else
    match findMatchBySize queued 4 with
    | Some fourPlayerMatch => Some fourPlayerMatch
    | None =>
      match findMatchBySize queued 3 with
      | Some threePlayerMatch => Some threePlayerMatch
      | None =>
        match findMatchBySize queued 2 with
        | Some twoPlayerMatch => Some twoPlayerMatch
        | None => None
        end
      end
    end.

Definition findMatchInQueue (q : Queue) : Queue * option (list QueuedPlayer) :=
  let (q', queued) := getQueuedPlayers q in (q', findMatch queued).

End Matchmaking.

(** ** services/ReconnectionService.ts, handlers/connectionHandlers.ts and
       the [reconnect_player] handler of the server entry point *)

Module Reconnection.
Import Game.

(** One instance of the class: its private map from player id to the handle
    of that player's pending timeout. *)
Record ReconnectionService := mkReconnectionService {
  disconnectionTimers : gmap string nat
}.

(** [new ReconnectionService()] *)
Definition newReconnectionService : ReconnectionService :=
  mkReconnectionService ∅.

(** The process and its store. [timeouts] are the timeouts pending in the
    Node runtime, by handle, each with the [playerId] and [roomCode] its
    callback has captured; a timeout that is pending has not expired.
    [connectionService] is the instance created once at the top of
    connectionHandlers.ts, the only one on which [handleDisconnection] is
    called, so the [this] of every callback. *)
Record World := mkWorld {
  games : gmap string GameState;
  sessions : gmap string PlayerSession;
  timeouts : gmap nat (string * string);
  nextHandle : nat;
  connectionService : ReconnectionService
}.

Definition storePlayerSession (w : World) (socketId pid name : string)
  (room : option string) (now : nat) : World :=
  mkWorld (games w)
          (<[pid := mkPlayerSession pid name room socketId now]> (sessions w))
          (timeouts w) (nextHandle w) (connectionService w).

Definition getPlayerSession (w : World) (pid : string) : option PlayerSession :=
  sessions w !! pid.

Definition updatePlayerConnectionStatus (g : gmap string GameState)
  (room pid : string) (status : ConnectionStatus) : gmap string GameState :=
  match getGameState g room with
  | None => g
  | Some gameState =>
    match findIndex (fun p => String.eqb (playerId p) pid) (players gameState) with
    | Some playerIndex =>
      saveGameState g
        (set_players (alter (set_connectionStatus status) playerIndex (players gameState))
                     gameState)
    | None => g
    end
  end.

(** [clearTimeout] of the handle the instance holds for the player, if any. *)
Definition clearExisting (svc : ReconnectionService) (pid : string)
  (pending : gmap nat (string * string)) : gmap nat (string * string) :=
  match disconnectionTimers svc !! pid with
  | Some handle => delete handle pending
  | None => pending
  end.

(** [handleDisconnection], called on [connectionService]. *)
Definition handleDisconnection (w : World) (socketId pid room : string) : World :=
  let games1 := updatePlayerConnectionStatus (games w) room pid DISCONNECTED in
  let svc := connectionService w in
  let pending := clearExisting svc pid (timeouts w) in
  let handle := nextHandle w in
  mkWorld games1 (sessions w)
          (<[handle := (pid, room)]> pending)
          (S handle)
          (mkReconnectionService (<[pid := handle]> (disconnectionTimers svc))).

Definition removePlayer (pid : string) (gs : GameState) : GameState :=
  set_players (filter (fun p => playerId p <> pid) (players gs)) gs.

Definition handlePermanentDisconnection (w : World) (pid room : string) : World :=
  match getGameState (games w) room with
  | None => w
  | Some gameState =>
    let gameState1 := removePlayer pid gameState in
    let games1 :=
      if (0 <? length (players gameState1))%nat then
        let gameState2 :=
          if (length (players gameState1) <=? currentPlayerIndex gameState1)%nat
          then set_currentPlayerIndex 0 gameState1
          else gameState1 in
        saveGameState (games w) gameState2
      else games w in
    mkWorld games1 (delete pid (sessions w)) (timeouts w) (nextHandle w)
            (connectionService w)
  end.

(** The grace period of the timeout [handle] runs out: its callback removes
    the player, then forgets the handle in [connectionService]. A handle that
    was cleared is no longer pending and nothing happens. *)
Definition expire (w : World) (handle : nat) : World :=
  match timeouts w !! handle with
  | None => w
  | Some (pid, room) =>
    let w1 := handlePermanentDisconnection
                (mkWorld (games w) (sessions w) (delete handle (timeouts w))
                         (nextHandle w) (connectionService w))
                pid room in
    mkWorld (games w1) (sessions w1) (timeouts w1) (nextHandle w1)
            (mkReconnectionService
               (delete pid (disconnectionTimers (connectionService w1))))
  end.

(** [cancelDisconnectionTimer] on the instance [svc]: the instance after the
    call and the timeouts left pending. *)
Definition cancelDisconnectionTimer (svc : ReconnectionService) (pid : string)
  (pending : gmap nat (string * string))
  : ReconnectionService * gmap nat (string * string) :=
  match disconnectionTimers svc !! pid with
  | Some handle =>
    (mkReconnectionService (delete pid (disconnectionTimers svc)),
     delete handle pending)
  | None => (svc, pending)
  end.

Definition hasActiveSession (w : World) (pid room : string) : bool :=
  match getPlayerSession w pid with
  | Some session => bool_decide (ps_roomCode session = Some room)
  | None => false
  end.

Definition updateSocketId (w : World) (pid newSocketId : string) (now : nat) : World :=
  match getPlayerSession w pid with
  | Some session =>
    mkWorld (games w)
            (<[pid := mkPlayerSession (ps_playerId session) (ps_playerName session)
                        (ps_roomCode session) newSocketId now]> (sessions w))
            (timeouts w) (nextHandle w) (connectionService w)
  | None => w
  end.

Inductive ReconnectReply :=
  | ReconnectError (error : string)
  | Reconnected (gameState : option GameState).

(** The [reconnect_player] handler. It works on an instance it creates for
    the request, [new ReconnectionService()], which is dropped when the
    handler returns. *)
Definition reconnect_player (w : World) (socketId pid room : string) (now : nat)
  : World * ReconnectReply :=
  if String.eqb pid "" || String.eqb room ""
  then (w, ReconnectError "Player ID and room code are required")
  else
    let reconnectionService := newReconnectionService in
    if negb (hasActiveSession w pid room)
    then (w, ReconnectError "No active session found for this room")
    else
      let '(_, pending) :=
        cancelDisconnectionTimer reconnectionService pid (timeouts w) in
      let w1 := mkWorld (games w) (sessions w) pending (nextHandle w)
                        (connectionService w) in
      let w2 := updateSocketId w1 pid socketId now in
      let w3 := mkWorld (updatePlayerConnectionStatus (games w2) room pid CONNECTED)
                        (sessions w2) (timeouts w2) (nextHandle w2)
                        (connectionService w2) in
      (w3, Reconnected (getGameState (games w3) room)).

(** [handleDisconnect] of connectionHandlers.ts for a socket of a player (not
    a spectator) whose [socket.data] holds [roomCode] and [playerId]. *)
Definition handleDisconnect (w : World) (socketId room pid : string) : World :=
  if String.eqb room "" || String.eqb pid "" then w
  else handleDisconnection w socketId pid room.

End Reconnection.

(** ** The game states the server stores *)

Module Stored.
Import Rules Game.

(** The stores the server can reach: every write of a game state goes
    through one of these operations ([updateGameState] has no caller), and a
    state leaves the store by [deleteGameState] or by expiry. *)
Inductive reachable : gmap string GameState -> Prop :=
  | reach_empty : reachable ∅
  | reach_initializeGame st room ps now :
      reachable st -> reachable (fst (initializeGame st room ps now))
  | reach_rollDice st room pid dice :
      reachable st -> reachable (fst (rollDice st room pid dice))
  | reach_moveToken st room pid tid target now :
      reachable st -> reachable (fst (moveToken st room pid tid target now))
  | reach_switchTurn st room :
      reachable st -> reachable (fst (switchTurn st room))
  | reach_connectionStatus st room pid status :
      reachable st ->
      reachable (Reconnection.updatePlayerConnectionStatus st room pid status)
  | reach_removal w pid room :
      reachable (Reconnection.games w) ->
      reachable (Reconnection.games
                   (Reconnection.handlePermanentDisconnection w pid room))
  | reach_deleteGameState st room :
      reachable st -> reachable (deleteGameState st room).

(** A stored game state: the state a reachable store holds for a room. *)
Definition stored (gs : GameState) : Prop :=
  exists st room, reachable st /\ getGameState st room = Some gs.

(** The ids [initializeGame] gives the four tokens of a colour. *)
Definition tokenIds (c : PlayerColor) : list string := tokenId <$> baseTokens c.

(** Shape of a token table: one entry per colour, holding that colour's four
    tokens in the order of their ordinals. *)
Definition wf_table (tbl : TokenTable) : Prop :=
  NoDup (fst <$> tbl)
  /\ Forall (fun e => tokenId <$> snd e = tokenIds (fst e)) tbl.

(** The colours and token ids of a table, which no operation changes. *)
Definition shape (tbl : TokenTable) : list (PlayerColor * list string) :=
  (fun e : PlayerColor * list TokenPosition => (fst e, tokenId <$> snd e)) <$> tbl.

Definition indexInRange (gs : GameState) : Prop :=
  players gs = [] \/ currentPlayerIndex gs < length (players gs).

Definition wf_state (gs : GameState) : Prop :=
  indexInRange gs /\ wf_table (tokenPositions gs) /\ consecutiveSixes gs <= 2.

(** Every state sits under the key of its own room code and is well formed. *)
Definition wf_store (st : gmap string GameState) : Prop :=
  forall key gs, st !! key = Some gs -> key = gameKey (roomCode gs) /\ wf_state gs.

(** The calls of [moveToken] that pass every check. *)
Definition passes (st : Store) (room pid tid target : string) (gs : GameState)
  (cp : Player) (dice : nat) (tokens : list TokenPosition) (i : nat)
  (t : TokenPosition) : Prop :=
  getGameState st room = Some gs
  /\ players gs !! currentPlayerIndex gs = Some cp
  /\ playerId cp = pid
  /\ phase gs = MOVING
  /\ diceValue gs = Some dice
  /\ isValidTokenId tid (color cp) = true
  /\ tableGet (color cp) (tokenPositions gs) = Some tokens
  /\ findToken tid tokens = Some (i, t)
  /\ canMoveToken (positionId t) dice (color cp) = MoveOk target.

(** When the scan of [switchTurn] stops at index [j]. *)
Definition stops (ps : list Player) (current j : nat) : bool :=
  match ps !! j with
  | Some p => negb ((0 <? rank p)%nat && negb (j =? current)%nat)
  | None => false
  end.

(** The token of ordinal [k + 1] of colour [c] as [initializeGame] creates
    it, on its base slot ([tok] where there is no such ordinal). *)
Definition homeToken (c : PlayerColor) (k : nat) (tok : TokenPosition) : TokenPosition :=
  default tok (baseTokens c !! k).

(** [tokenPositions[c][k]] *)
Definition tokenAt (tbl : TokenTable) (c : PlayerColor) (k : nat)
  : option TokenPosition :=
  tableGet c tbl ≫= fun tokens => tokens !! k.

End Stored.

(** ** Concrete games *)

Module Scenario.
Import Rules Game.

Definition room : string := "ROOM01".

Definition ann : Player := mkPlayer "p1" "Ann" RED CONNECTED false 0.
Definition bob : Player := mkPlayer "p2" "Bob" BLUE CONNECTED false 0.

(** A two-player game as [initializeGame] leaves it. *)
Definition fresh : GameState := initialGameState room [ann; bob] 0.
Definition freshStore : Store := fst (initializeGame ∅ room [ann; bob] 0).

(** Ann has rolled a six and has to move. *)
Definition rolledSix : Store := fst (rollDice freshStore room "p1" 6).

(** A state of the same game with the given tokens, dice, phase and count
    of sixes, Ann to play. *)
Definition position (red blue : list string) (dice : option nat) (ph : GamePhase)
  (sixes : nat) : GameState :=
  mkGameState room [ann; bob] 0 dice
    [(RED, zip_with mkTokenPosition (tokenId <$> baseTokens RED) red);
     (BLUE, zip_with mkTokenPosition (tokenId <$> baseTokens BLUE) blue)]
    ph [] sixes (Some 0) None.

Definition storeOf (gs : GameState) : Store := saveGameState ∅ gs.

(** Ann is to roll with her four tokens two cells before home: no roll
    above 1 gives her a move. *)
Definition stuck : GameState :=
  position ["R51"; "R51"; "R51"; "R51"] ["B1"; "B2"; "B3"; "B4"] None ROLLING 0.

(** Ann has three tokens home and the last one cell before it; she has
    rolled a one. *)
Definition lastStep : GameState :=
  position ["RF"; "RF"; "RF"; "R51"] ["B04"; "B2"; "B3"; "B4"] (Some 1) MOVING 0.

(** Scripts of calls on the room, to build stores the server reaches. *)
Inductive Call :=
  | Roll (pid : string) (dice : nat)
  | Move (pid tid target : string)
  | Switch.

Definition call (st : Store) (c : Call) : Store :=
  match c with
  | Roll pid dice => fst (rollDice st room pid dice)
  | Move pid tid target => fst (moveToken st room pid tid target 0)
  | Switch => fst (switchTurn st room)
  end.

Definition play (script : list Call) : Store := fold_left call script freshStore.

(** Ann has rolled two sixes and moved twice; she is to roll again. *)
Definition twoSixes : Store :=
  play [Roll "p1" 6; Move "p1" "RT1" "R10"; Roll "p1" 6; Move "p1" "RT1" "G04"].

(** Bob's token BT1 stands one cell before Ann's RT1 on G05; Bob has rolled
    a one. *)
Definition beforeCapture : Store :=
  play [Roll "p1" 6; Move "p1" "RT1" "R10"; Roll "p1" 5; Move "p1" "RT1" "G05";
        Switch;
        Roll "p2" 6; Move "p2" "BT1" "B04"; Roll "p2" 6; Move "p2" "BT1" "R42";
        Roll "p2" 5; Move "p2" "BT1" "R01"; Switch;
        Roll "p1" 6; Move "p1" "RT2" "R10"; Roll "p1" 1; Move "p1" "RT2" "R20";
        Switch;
        Roll "p2" 6; Move "p2" "BT1" "R50"; Roll "p2" 1].

(** Three queued players, the oldest asking for four players, the others
    for three. *)
Definition waiting : list Matchmaking.QueuedPlayer :=
  [Matchmaking.mkQueuedPlayer "a" "A" 4 1;
   Matchmaking.mkQueuedPlayer "b" "B" 3 2;
   Matchmaking.mkQueuedPlayer "c" "C" 3 3].

(** The process while Ann and Bob play: both have a session on their socket
    and no timeout is pending. *)
Definition playing : Reconnection.World :=
  Reconnection.storePlayerSession
    (Reconnection.storePlayerSession
       (Reconnection.mkWorld freshStore ∅ ∅ 0 Reconnection.newReconnectionService)
       "socket-1" "p1" "Ann" (Some room) 0)
    "socket-2" "p2" "Bob" (Some room) 0.

(** Ann's socket drops, and she reconnects on a new socket within the grace
    period. *)
Definition dropped : Reconnection.World :=
  Reconnection.handleDisconnect playing "socket-1" room "p1".

Definition reconnected : Reconnection.World :=
  fst (Reconnection.reconnect_player dropped "socket-3" "p1" room 30).

End Scenario.

(** * Properties *)

Import Rules Game.

(** ** Lists as JS arrays *)

Section ArrayFacts.

Lemma indexOf_from_lookup (l : list string) :
  forall (k i : nat) (x : string),
    NoDup l -> l !! i = Some x -> indexOf_from k x l = Some (k + i).
Proof.
  induction l as [|y l IH]; intros k i x Hnd Hi; [discriminate|].
  apply NoDup_cons in Hnd as [Hy Hnd].
  destruct i as [|i]; simpl in *.
  - injection Hi as ->. rewrite String.eqb_refl. f_equal. lia.
  - destruct (String.eqb_spec y x) as [->|Hne].
    + exfalso. apply Hy. eapply list_elem_of_lookup_2; eauto.
    + rewrite (IH (S k) i x Hnd Hi). f_equal. lia.
Qed.

Lemma indexOf_lookup (l : list string) (i : nat) (x : string) :
  NoDup l -> l !! i = Some x -> indexOf x l = Some i.
Proof. intros Hnd Hi. unfold indexOf. now rewrite (indexOf_from_lookup l 0 i x). Qed.

Lemma findIndex_from_Some {A} (f : A -> bool) (l : list A) :
  forall k i, findIndex_from k f l = Some i ->
    k <= i /\ (exists x, l !! (i - k) = Some x /\ f x = true)
    /\ (forall j y, j < i - k -> l !! j = Some y -> f y = false).
Proof.
  induction l as [|y l IH]; intros k i H; simpl in H; [discriminate|].
  destruct (f y) eqn:Hf.
  - injection H as <-. split; [lia|]. rewrite Nat.sub_diag. split.
    + exists y. auto.
    + intros j z Hj. lia.
  - apply IH in H as (Hk & (x & Hx & Hfx) & Hmin).
    split; [lia|]. replace (i - k) with (S (i - S k)) by lia. split.
    + exists x. auto.
    + intros [|j] z Hj Hz; simpl in Hz.
      * now injection Hz as <-.
      * apply (Hmin j z); [lia|assumption].
Qed.

Lemma findIndex_Some {A} (f : A -> bool) (l : list A) (i : nat) :
  findIndex f l = Some i ->
  (exists x, l !! i = Some x /\ f x = true)
  /\ (forall j y, j < i -> l !! j = Some y -> f y = false).
Proof.
  intros H. apply findIndex_from_Some in H as (_ & H1 & H2).
  rewrite Nat.sub_0_r in H1, H2. auto.
Qed.

Lemma findIndex_from_None {A} (f : A -> bool) (l : list A) :
  forall k, findIndex_from k f l = None -> forall x, x ∈ l -> f x = false.
Proof.
  induction l as [|y l IH]; intros k H x Hx.
  - inversion Hx.
  - simpl in H. destruct (f y) eqn:Hf; [discriminate|].
    apply elem_of_cons in Hx as [->|Hx]; [assumption|]. eapply IH; eauto.
Qed.

End ArrayFacts.

(** ** Rules engine *)

Section RulesFacts.

Lemma path_NoDup (c : PlayerColor) : NoDup (getTokenPath c).
Proof. destruct c; apply (bool_decide_unpack _); vm_compute; exact I. Qed.

Lemma path_length (c : PlayerColor) : length (getTokenPath c) = 57.
Proof. now destruct c. Qed.

Lemma path_not_base (c : PlayerColor) :
  Forall (fun p => isTokenInBase p = false) (getTokenPath c).
Proof. destruct c; apply (bool_decide_unpack _); vm_compute; exact I. Qed.

Lemma base_slot_in_base (c : PlayerColor) (p : string) :
  p ∈ BASE_POSITIONS c -> isTokenInBase p = true.
Proof.
  intros H. destruct c; simpl in H;
    repeat (apply elem_of_cons in H as [->|H]; [reflexivity|]); inversion H.
Qed.

Lemma canMoveToken_base (c : PlayerColor) (dice : nat) (pos : string) :
  isTokenInBase pos = true ->
  canMoveToken pos dice c =
    if (dice =? 6)%nat then MoveOk (START_POSITIONS c)
    else MoveBad "Need a 6 to move out of base".
Proof. intros H. unfold canMoveToken. now rewrite H. Qed.

Lemma canMoveToken_path (c : PlayerColor) (dice i : nat) (pos : string) :
  getTokenPath c !! i = Some pos ->
  canMoveToken pos dice c =
    if (length (getTokenPath c) <=? i + dice)%nat then MoveBad "Move exceeds path length"
    else MoveOk (default "" (getTokenPath c !! (i + dice))).
Proof.
  intros Hi. unfold canMoveToken.
  assert (isTokenInBase pos = false) as ->.
  { pose proof (path_not_base c) as HF. rewrite Forall_forall in HF.
    apply HF. eapply list_elem_of_lookup_2; eauto. }
  now rewrite (indexOf_lookup _ i pos (path_NoDup c) Hi).
Qed.

End RulesFacts.

(** C5. For every colour, dice value in 1..6 and token position: from a base
    slot (every entry of [BASE_POSITIONS] is one) the move is valid iff the
    dice shows 6, and its target is the colour's start cell; from the cell at
    index [i] of the colour's path the move is valid iff [i + dice] is below
    the path length, and its target is the path cell at index [i + dice]. *)
Theorem canMoveToken_spec (c : PlayerColor) (dice : nat) (pos : string) :
  1 <= dice <= 6 ->
  (forall c', pos ∈ BASE_POSITIONS c' -> isTokenInBase pos = true)
  /\ (isTokenInBase pos = true ->
        (valid (canMoveToken pos dice c) = true <-> dice = 6)
        /\ (dice = 6 -> canMoveToken pos dice c = MoveOk (START_POSITIONS c)))
  /\ (forall i, getTokenPath c !! i = Some pos ->
        (valid (canMoveToken pos dice c) = true
           <-> i + dice < length (getTokenPath c))
        /\ (i + dice < length (getTokenPath c) ->
              exists target, getTokenPath c !! (i + dice) = Some target
                             /\ canMoveToken pos dice c = MoveOk target)).
Proof.
  intros Hdice. split; [intros c'; apply base_slot_in_base|]. split.
  - intros Hbase. rewrite (canMoveToken_base c dice pos Hbase).
    destruct (Nat.eqb_spec dice 6) as [->|Hne]; simpl.
    + split; [tauto|reflexivity].
    + split; [split; [discriminate|contradiction]|contradiction].
  - intros i Hi. rewrite (canMoveToken_path c dice i pos Hi).
    destruct (Nat.leb_spec (length (getTokenPath c)) (i + dice)) as [Hge|Hlt]; simpl.
    + split; [split; [discriminate|lia]|lia].
    + split; [tauto|]. intros _.
      destruct (lookup_lt_is_Some_2 (getTokenPath c) (i + dice) Hlt) as [t Ht].
      exists t. now rewrite Ht.
Qed.

Lemma canMoveToken_spec_witness :
  1 <= 6 <= 6
  /\ canMoveToken "R1" 6 RED = MoveOk "R10"
  /\ valid (canMoveToken "R51" 2 RED) = false.
Proof.
  split; [lia|]. split.
  - apply (canMoveToken_spec RED 6 "R1"); [lia|reflexivity|reflexivity].
  - destruct (canMoveToken_spec RED 2 "R51" ltac:(lia)) as (_ & _ & H).
    destruct (H 55 eq_refl) as [[Hv _] _].
    destruct (valid (canMoveToken "R51" 2 RED)); [|reflexivity].
    specialize (Hv eq_refl). simpl in Hv. lia.
Defined.

(** ** The scan of switchTurn *)

Import Stored.

Section ScanFacts.

Variable ps : list Player.
Variable current : nat.
Hypothesis Hn : 0 < length ps.

Lemma scan_shift (next k : nat) :
  ((next + 1) mod length ps + k) mod length ps = (next + S k) mod length ps.
Proof. clear Hn. rewrite Nat.Div0.add_mod_idemp_l. f_equal. lia. Qed.

Lemma scan_index_lt (m : nat) : m mod length ps < length ps.
Proof. apply Nat.mod_upper_bound. lia. Qed.

Lemma scan_lookup (m : nat) : exists p, ps !! (m mod length ps) = Some p.
Proof. apply lookup_lt_is_Some_2, scan_index_lt. Qed.

(** Every index is met within [length ps] iterations, from any start. *)
Lemma scan_cover (next i0 : nat) :
  i0 < length ps -> exists k, 1 <= k <= length ps /\ (next + k) mod length ps = i0.
Proof.
  intros Hi. pose proof (Nat.div_mod_eq next (length ps)) as Hdm.
  pose proof (scan_index_lt next) as Hr.
  set (q := next / length ps) in *. set (r := next mod length ps) in *.
  destruct (le_lt_dec i0 r) as [Hle|Hgt].
  - exists (length ps + i0 - r). split; [lia|].
    replace (next + (length ps + i0 - r)) with (i0 + (q + 1) * length ps) by lia.
    rewrite Nat.Div0.mod_add. now apply Nat.mod_small.
  - exists (i0 - r). split; [lia|].
    replace (next + (i0 - r)) with (i0 + q * length ps) by lia.
    rewrite Nat.Div0.mod_add. now apply Nat.mod_small.
Qed.

(** Before a full round the scan is not back where it started. *)
Lemma scan_not_back (k : nat) :
  current < length ps -> 1 <= k < length ps -> (current + k) mod length ps <> current.
Proof.
  clear Hn. intros Hc Hk. destruct (le_lt_dec (length ps) (current + k)) as [Hge|Hlt].
  - replace (current + k) with ((current + k - length ps) + 1 * length ps) by lia.
    rewrite Nat.Div0.mod_add, Nat.mod_small; lia.
  - rewrite Nat.mod_small; lia.
Qed.

Lemma scan_round : current < length ps -> (current + length ps) mod length ps = current.
Proof.
  clear Hn. intros Hc. replace (current + length ps) with (current + 1 * length ps) by lia.
  rewrite Nat.Div0.mod_add. now apply Nat.mod_small.
Qed.

Lemma scanNext_stops (fuel : nat) :
  forall next,
    (exists k, 1 <= k <= fuel /\ stops ps current ((next + k) mod length ps) = true) ->
    exists k, 1 <= k <= fuel
      /\ scanNext fuel ps current next = Returned ((next + k) mod length ps)
      /\ stops ps current ((next + k) mod length ps) = true
      /\ (forall k', 1 <= k' < k ->
            stops ps current ((next + k') mod length ps) = false).
Proof.
  induction fuel as [|fuel IH]; intros next (k & Hk & Hs); [lia|].
  simpl scanNext. destruct (scan_lookup (next + 1)) as [p Hp]. rewrite Hp.
  destruct (stops ps current ((next + 1) mod length ps)) eqn:Hstop.
  - exists 1. unfold stops in Hstop. rewrite Hp in Hstop.
    apply negb_true_iff in Hstop. rewrite Hstop.
    repeat split; [lia|lia| |intros; lia].
    unfold stops. rewrite Hp. now rewrite Hstop.
  - assert (k <> 1) as Hk1 by (intros ->; congruence).
    pose proof Hstop as Hcond. unfold stops in Hcond. rewrite Hp in Hcond.
    apply negb_false_iff in Hcond. rewrite Hcond.
    destruct (IH ((next + 1) mod length ps)) as (k2 & Hk2 & Hret & Hs2 & Hmin).
    { exists (k - 1). split; [lia|]. rewrite scan_shift.
      now replace (S (k - 1)) with k by lia. }
    rewrite scan_shift in Hret, Hs2. exists (S k2).
    repeat split; [lia|lia|assumption|assumption|].
    intros k' Hk'. destruct (decide (k' = 1)) as [->|Hne]; [assumption|].
    replace k' with (S (k' - 1)) by lia. rewrite <- scan_shift.
    apply Hmin. lia.
Qed.

Lemma scanNext_Returned_inv (fuel : nat) :
  forall next j, scanNext fuel ps current next = Returned j ->
    exists k, 1 <= k <= fuel /\ j = (next + k) mod length ps
              /\ stops ps current j = true.
Proof.
  induction fuel as [|fuel IH]; intros next j H; [discriminate|].
  simpl in H. destruct (scan_lookup (next + 1)) as [p Hp]. rewrite Hp in H.
  destruct ((0 <? rank p)%nat && negb ((next + 1) mod length ps =? current)%nat) eqn:Hc.
  - apply IH in H as (k & Hk & -> & Hs). exists (S k).
    rewrite scan_shift in *. repeat split; [lia|lia|assumption].
  - injection H as <-. exists 1. repeat split; [lia|lia|].
    unfold stops. rewrite Hp. now rewrite Hc.
Qed.

Lemma scanNext_never_throws (fuel : nat) :
  forall next why, scanNext fuel ps current next = Stopped why -> why = Diverged.
Proof.
  induction fuel as [|fuel IH]; intros next why H; simpl in H; [congruence|].
  destruct (scan_lookup (next + 1)) as [p Hp]. rewrite Hp in H.
  destruct ((0 <? rank p)%nat && negb ((next + 1) mod length ps =? current)%nat);
    [eauto|discriminate].
Qed.

Lemma scanNext_mono (fuel : nat) :
  forall fuel' next j, scanNext fuel ps current next = Returned j -> fuel <= fuel' ->
    scanNext fuel' ps current next = Returned j.
Proof.
  induction fuel as [|fuel IH]; intros fuel' next j H Hle; [discriminate|].
  destruct fuel' as [|fuel']; [lia|]. simpl in *.
  destruct (ps !! ((next + 1) mod length ps)) as [p|]; [|discriminate].
  destruct ((0 <? rank p)%nat && negb ((next + 1) mod length ps =? current)%nat);
    [|assumption].
  apply IH; [assumption|lia].
Qed.

(** A scan that stops at all stops within [length ps] iterations: the fuel
    of [nextPlayerIndex] loses no result. *)
Lemma scanNext_fuel_enough (fuel next j : nat) :
  scanNext fuel ps current next = Returned j ->
  scanNext (length ps) ps current next = Returned j.
Proof.
  intros H. destruct (scanNext_Returned_inv _ _ _ H) as (k & Hk & -> & Hs).
  destruct (scan_cover next ((next + k) mod length ps) (scan_index_lt _))
    as (k0 & Hk0 & Heq).
  destruct (scanNext_stops (length ps) next) as (k1 & Hk1 & Hret & _).
  { exists k0. split; [assumption|]. now rewrite Heq. }
  pose proof (scanNext_mono _ (Nat.max fuel (length ps)) _ _ H ltac:(lia)) as H1.
  pose proof (scanNext_mono _ (Nat.max fuel (length ps)) _ _ Hret ltac:(lia)) as H2.
  congruence.
Qed.

End ScanFacts.

(** With no player the first evaluation of the loop condition throws. *)
Lemma scanNext_nil (fuel current next : nat) :
  scanNext (S fuel) [] current next = Stopped Threw.
Proof. reflexivity. Qed.

(** The loop of [switchTurn] runs forever exactly when the embedding says
    [Diverged]. *)
Lemma nextPlayerIndex_diverges (gs : GameState) :
  nextPlayerIndex gs = Stopped Diverged ->
  forall fuel,
    scanNext fuel (players gs) (currentPlayerIndex gs) (currentPlayerIndex gs)
    = Stopped Diverged.
Proof.
  unfold nextPlayerIndex. intros H fuel.
  destruct (players gs) as [|p ps] eqn:Hps; [discriminate|].
  assert (0 < length (p :: ps)) as Hn by (simpl; lia).
  destruct (scanNext fuel (p :: ps) (currentPlayerIndex gs) (currentPlayerIndex gs))
    as [j|why] eqn:Hscan.
  - apply (scanNext_fuel_enough _ _ Hn) in Hscan.
    apply (scanNext_mono _ _ Hn _ (S (length (p :: ps)))) in Hscan; [|lia].
    congruence.
  - f_equal. eapply scanNext_never_throws; eauto.
Qed.

(** ** switchTurn *)

Section TurnFacts.

Lemma stops_true (ps : list Player) (current j : nat) :
  stops ps current j = true <->
  exists p, ps !! j = Some p /\ (rank p = 0 \/ j = current).
Proof.
  unfold stops. destruct (ps !! j) as [p|]; split.
  - intros H. exists p. split; [reflexivity|].
    apply negb_true_iff, andb_false_iff in H as [H|H].
    + left. apply Nat.ltb_ge in H. lia.
    + right. apply negb_false_iff in H. now apply Nat.eqb_eq.
  - intros (q & [= <-] & [H|H]); apply negb_true_iff, andb_false_iff.
    + left. apply Nat.ltb_ge. lia.
    + right. apply negb_false_iff. now apply Nat.eqb_eq.
  - discriminate.
  - intros (q & [=] & _).
Qed.

Lemma stops_false (ps : list Player) (current j : nat) (p : Player) :
  ps !! j = Some p -> stops ps current j = false -> 0 < rank p /\ j <> current.
Proof.
  unfold stops. intros ->. intros H.
  apply negb_false_iff, andb_true_iff in H as [H1 H2].
  apply Nat.ltb_lt in H1. apply negb_true_iff, Nat.eqb_neq in H2. auto.
Qed.

Lemma getGameState_save (st : Store) (gs : GameState) :
  getGameState (saveGameState st gs) (roomCode gs) = Some gs.
Proof. unfold getGameState, saveGameState. apply lookup_insert_eq. Qed.

Lemma switchTurn_eq (st : Store) (room : string) (gs : GameState) (next : nat) :
  getGameState st room = Some gs ->
  nextPlayerIndex gs = Returned next ->
  switchTurn st room
  = (saveGameState st (turnSwitched next gs), Returned (Some (turnSwitched next gs))).
Proof. intros Hg Hn. unfold switchTurn. now rewrite Hg, Hn. Qed.

(** The scan from the current index: where it stops when some index stops
    within a round. *)
Lemma nextPlayerIndex_first_stop (gs : GameState) (k0 : nat) :
  0 < length (players gs) ->
  1 <= k0 <= length (players gs) ->
  stops (players gs) (currentPlayerIndex gs)
        ((currentPlayerIndex gs + k0) mod length (players gs)) = true ->
  exists k, 1 <= k <= k0
    /\ nextPlayerIndex gs
       = Returned ((currentPlayerIndex gs + k) mod length (players gs))
    /\ stops (players gs) (currentPlayerIndex gs)
             ((currentPlayerIndex gs + k) mod length (players gs)) = true
    /\ (forall k', 1 <= k' < k ->
          stops (players gs) (currentPlayerIndex gs)
                ((currentPlayerIndex gs + k') mod length (players gs)) = false).
Proof.
  intros Hn Hk0 Hs.
  destruct (scanNext_stops (players gs) (currentPlayerIndex gs) Hn
              (length (players gs)) (currentPlayerIndex gs))
    as (k & Hk & Hret & Hsk & Hmin); [eauto|].
  exists k. repeat split; try assumption; try lia.
  - destruct (le_lt_dec k k0) as [|Hlt]; [assumption|].
    rewrite (Hmin k0) in Hs; [discriminate|lia].
  - unfold nextPlayerIndex.
    apply (scanNext_mono _ _ Hn (length (players gs))); [assumption|lia].
Qed.

End TurnFacts.

(** C9. When some player has rank 0, [switchTurn] returns and the player at
    the new [currentPlayerIndex] has rank 0; the new index is the first one
    met scanning forward from the current index with wrap-around, every
    player passed over having rank > 0. When the current index designates a
    player and no other player has rank 0, the index is left unchanged. *)
Theorem switchTurn_selects_unfinished (st : Store) (room : string) (gs : GameState) :
  getGameState st room = Some gs ->
  ((exists p, p ∈ players gs /\ rank p = 0) ->
   exists next gs',
     switchTurn st room = (saveGameState st gs', Returned (Some gs'))
     /\ gs' = turnSwitched next gs
     /\ currentPlayerIndex gs' = next
     /\ players gs' = players gs
     /\ (exists p, players gs' !! currentPlayerIndex gs' = Some p /\ rank p = 0)
     /\ (exists k, 1 <= k <= length (players gs)
           /\ next = (currentPlayerIndex gs + k) mod length (players gs)
           /\ forall k', 1 <= k' < k ->
                exists q, players gs !! ((currentPlayerIndex gs + k')
                                           mod length (players gs)) = Some q
                          /\ 0 < rank q))
  /\ (currentPlayerIndex gs < length (players gs) ->
      (forall j q, j <> currentPlayerIndex gs -> players gs !! j = Some q ->
                   0 < rank q) ->
      exists gs',
        switchTurn st room = (saveGameState st gs', Returned (Some gs'))
        /\ players gs' = players gs
        /\ currentPlayerIndex gs' = currentPlayerIndex gs).
Proof.
  intros Hget. split.
  - intros (p & Hin & Hrank).
    apply list_elem_of_lookup in Hin as [i0 Hi0].
    pose proof (lookup_lt_Some _ _ _ Hi0) as Hlt.
    assert (0 < length (players gs)) as Hn by lia.
    destruct (scan_cover (players gs) Hn (currentPlayerIndex gs) i0 Hlt)
      as (k0 & Hk0 & Hidx).
    destruct (nextPlayerIndex_first_stop gs k0 Hn Hk0) as (k & Hk & Hret & Hs & Hmin).
    { rewrite Hidx. apply stops_true. eauto. }
    set (next := (currentPlayerIndex gs + k) mod length (players gs)) in *.
    exists next, (turnSwitched next gs).
    split; [now apply switchTurn_eq|]. split; [reflexivity|].
    split; [reflexivity|]. split; [reflexivity|]. split.
    + simpl. apply stops_true in Hs as (pj & Hpj & [Hz|Hback]); [eauto|].
      exists pj. split; [assumption|].
      destruct (Nat.eq_dec (rank pj) 0) as [|Hpos]; [assumption|exfalso].
      assert (currentPlayerIndex gs < length (players gs)) as Hc.
      { rewrite <- Hback. apply Nat.mod_upper_bound. lia. }
      assert (k0 <> length (players gs)) as Hk0n.
      { intros ->. rewrite (scan_round _ _ Hc) in Hidx. subst i0.
        fold next in Hback. rewrite <- Hback, Hpj in Hi0. congruence. }
      apply (scan_not_back (players gs) (currentPlayerIndex gs) k Hc); [lia|].
      exact Hback.
    + exists k. split; [lia|]. split; [reflexivity|].
      intros k' Hk'.
      destruct (scan_lookup (players gs) Hn (currentPlayerIndex gs + k')) as [q Hq].
      exists q. split; [assumption|].
      eapply stops_false; [exact Hq|]. now apply Hmin.
  - intros Hc Hothers.
    assert (0 < length (players gs)) as Hn by lia.
    destruct (nextPlayerIndex_first_stop gs (length (players gs)) Hn)
      as (k & Hk & Hret & Hs & _); [lia| |].
    { rewrite (scan_round _ _ Hc). apply stops_true.
      destruct (lookup_lt_is_Some_2 _ _ Hc) as [pc Hpc]. eauto. }
    set (next := (currentPlayerIndex gs + k) mod length (players gs)) in *.
    assert (next = currentPlayerIndex gs) as Hnext.
    { apply stops_true in Hs as (pj & Hpj & [Hz|Hback]); [|assumption].
      destruct (Nat.eq_dec next (currentPlayerIndex gs)) as [|Hne]; [assumption|].
      specialize (Hothers next pj Hne Hpj). lia. }
    exists (turnSwitched next gs).
    split; [now apply switchTurn_eq|]. split; [reflexivity|]. exact Hnext.
Qed.

(** ** Well-formedness of what is stored *)

Section Invariants.

Lemma wf_table_shape (tbl tbl' : TokenTable) :
  shape tbl' = shape tbl -> wf_table tbl -> wf_table tbl'.
Proof.
  intros Hs [Hnd Hall].
  assert (fst <$> tbl' = fst <$> tbl) as Hk.
  { apply (f_equal (fmap fst)) in Hs. unfold shape in Hs.
    rewrite <- !list_fmap_compose in Hs. exact Hs. }
  split; [now rewrite Hk|].
  assert (Forall (fun e : PlayerColor * list string => snd e = tokenIds (fst e))
                 (shape tbl)) as HF.
  { unfold shape. rewrite Forall_fmap. exact Hall. }
  rewrite <- Hs in HF. unfold shape in HF. rewrite Forall_fmap in HF. exact HF.
Qed.

Lemma alter_positionId_ids (pos : string) (i : nat) (tokens : list TokenPosition) :
  tokenId <$> alter (set_positionId pos) i tokens = tokenId <$> tokens.
Proof.
  revert i. induction tokens as [|t tokens IH]; intros [|i]; simpl; try reflexivity.
  f_equal. apply IH.
Qed.

Lemma tableGet_Some_ids (tbl : TokenTable) (c : PlayerColor) (tokens : list TokenPosition) :
  wf_table tbl -> tableGet c tbl = Some tokens -> tokenId <$> tokens = tokenIds c.
Proof.
  intros [_ Hall]. induction tbl as [|[c' toks] tbl IH]; simpl; [discriminate|].
  apply Forall_cons in Hall as [Hhd Htl].
  destruct (decide (c' = c)) as [->|Hne]; [|auto].
  intros [= <-]. exact Hhd.
Qed.

Lemma tableSet_shape (tbl : TokenTable) (c : PlayerColor) (old tokens : list TokenPosition) :
  tableGet c tbl = Some old -> tokenId <$> tokens = tokenId <$> old ->
  shape (tableSet c tokens tbl) = shape tbl.
Proof.
  intros Hget Hids. induction tbl as [|[c' toks] tbl IH]; simpl in *; [discriminate|].
  destruct (decide (c' = c)) as [->|Hne]; simpl.
  - injection Hget as ->. now rewrite Hids.
  - f_equal. auto.
Qed.

Lemma tableSet_keys (tbl : TokenTable) (c : PlayerColor) (tokens : list TokenPosition) :
  fst <$> tableSet c tokens tbl
  = if decide (c ∈ fst <$> tbl) then fst <$> tbl else ((fst <$> tbl) ++ [c])%list.
Proof.
  induction tbl as [|[c' toks] tbl IH]; [reflexivity|].
  cbn [tableSet]. destruct (decide (c' = c)) as [->|Hne]; rewrite !fmap_cons; cbn [fst].
  - rewrite decide_True; [reflexivity|]. apply elem_of_cons. now left.
  - rewrite IH. repeat case_decide; try reflexivity; exfalso.
    + match goal with H : ~ _ |- _ => apply H end. apply elem_of_cons. now right.
    + match goal with H : _ ∈ _ :: _ |- _ => apply elem_of_cons in H as [->|H] end;
        contradiction.
Qed.

Lemma wf_table_tableSet (tbl : TokenTable) (c : PlayerColor) (tokens : list TokenPosition) :
  wf_table tbl -> tokenId <$> tokens = tokenIds c -> wf_table (tableSet c tokens tbl).
Proof.
  intros [Hnd Hall] Hids. split.
  - rewrite tableSet_keys. destruct (decide (c ∈ fst <$> tbl)); [assumption|].
    apply NoDup_app. split; [assumption|]. split.
    + intros x Hx Hc. apply list_elem_of_singleton in Hc. now subst.
    + apply NoDup_singleton.
  - clear Hnd. induction tbl as [|[c' toks] tbl IH]; simpl.
    + constructor; [exact Hids|constructor].
    + apply Forall_cons in Hall as [Hhd Htl].
      destruct (decide (c' = c)) as [->|Hne]; constructor; auto.
Qed.

Lemma wf_table_initial (ps : list Player) : wf_table (initialTokenPositions ps).
Proof.
  unfold initialTokenPositions.
  assert (wf_table []) as Hnil by (split; constructor).
  revert Hnil. generalize (@nil (PlayerColor * list TokenPosition)).
  induction ps as [|p ps IH]; intros tbl Hwf; simpl; [assumption|].
  apply IH. now apply wf_table_tableSet.
Qed.

Lemma sendToBase_shape (id : string) (tbl tbl' : TokenTable) :
  sendToBase id tbl = WentToBase tbl' -> shape tbl' = shape tbl.
Proof.
  revert tbl'. induction tbl as [|[c toks] tbl IH]; intros tbl' H; simpl in H;
    [discriminate|].
  destruct (findIndex (hasTokenId id) toks) as [i|].
  - destruct (getBasePosition id c) as [b|]; [|discriminate].
    injection H as <-. simpl. now rewrite alter_positionId_ids.
  - destruct (sendToBase id tbl) as [rest| |]; try discriminate.
    injection H as <-. simpl. f_equal. now apply IH.
Qed.

Lemma resolveCaptures_shape (caps : list TokenPosition) :
  forall tbl last tbl' last',
    resolveCaptures caps tbl last = Some (tbl', last') -> shape tbl' = shape tbl.
Proof.
  induction caps as [|t caps IH]; intros tbl last tbl' last' H; simpl in H.
  - now injection H as <- _.
  - destruct (sendToBase (tokenId t) tbl) as [tbl1| |] eqn:Hs; [| |discriminate].
    + apply IH in H. rewrite H. eapply sendToBase_shape; eauto.
    + eapply IH; eauto.
Qed.

Lemma wf_state_same (gs gs' : GameState) :
  length (players gs') = length (players gs) ->
  currentPlayerIndex gs' = currentPlayerIndex gs ->
  shape (tokenPositions gs') = shape (tokenPositions gs) ->
  consecutiveSixes gs' <= consecutiveSixes gs ->
  wf_state gs -> wf_state gs'.
Proof.
  intros Hp Hi Ht Hs (Hidx & Htbl & Hsix). split; [|split].
  - unfold indexInRange in *. rewrite Hi, Hp.
    destruct Hidx as [Hnil|Hlt]; [|now right].
    left. rewrite Hnil in Hp. now apply length_zero_iff_nil.
  - eapply wf_table_shape; eauto.
  - lia.
Qed.

Lemma wf_store_save (st : Store) (gs : GameState) :
  wf_store st -> wf_state gs -> wf_store (saveGameState st gs).
Proof.
  intros Hst Hgs key gs' Hl. unfold saveGameState in Hl.
  destruct (decide (gameKey (roomCode gs) = key)) as [<-|Hne].
  - rewrite lookup_insert_eq in Hl. now injection Hl as <-.
  - rewrite lookup_insert_ne in Hl by assumption. now apply Hst.
Qed.

Lemma wf_store_get (st : Store) (room : string) (gs : GameState) :
  wf_store st -> getGameState st room = Some gs -> roomCode gs = room /\ wf_state gs.
Proof.
  intros Hst Hget. destruct (Hst _ _ Hget) as [Hkey Hwf]. split; [|assumption].
  unfold gameKey, GAME_STATE_PREFIX in Hkey. simpl in Hkey. now injection Hkey.
Qed.

Lemma wf_recordWin (now idx : nat) (p : Player) (gs : GameState) :
  wf_state gs -> wf_state (recordWin now idx p gs).
Proof.
  intros Hwf. unfold recordWin.
  set (ps1 := alter (set_rank (length (rankings gs) + 1)) idx (players gs)).
  assert (length ps1 = length (players gs)) as Hl1 by apply length_alter.
  destruct (_ =? _)%nat.
  - destruct (findIndex _ ps1) as [i|]; [destruct (ps1 !! i)|];
      (eapply wf_state_same; [| | | |exact Hwf]); simpl; try reflexivity;
      try assumption.
    now rewrite length_alter.
  - eapply wf_state_same; [| | | |exact Hwf]; simpl; auto.
Qed.

Lemma wf_switchTurn (st : Store) (room : string) :
  wf_store st -> wf_store (fst (switchTurn st room)).
Proof.
  intros Hst. unfold switchTurn.
  destruct (getGameState st room) as [gs|] eqn:Hget; [|assumption].
  destruct (nextPlayerIndex gs) as [next|why] eqn:Hnext; [|assumption].
  simpl. apply wf_store_save; [assumption|].
  destruct (wf_store_get _ _ _ Hst Hget) as [_ (_ & Htbl & _)].
  split; [|split; [exact Htbl|simpl; lia]].
  right. simpl. unfold nextPlayerIndex in Hnext.
  destruct (players gs) as [|p ps] eqn:Hps; [discriminate|].
  assert (0 < length (p :: ps)) as Hn by (simpl; lia).
  destruct (scanNext_Returned_inv _ _ Hn _ _ _ Hnext) as (k & _ & -> & _).
  apply Nat.mod_upper_bound. lia.
Qed.

Lemma wf_rollDice (st : Store) (room pid : string) (dice : nat) :
  wf_store st -> wf_store (fst (rollDice st room pid dice)).
Proof.
  intros Hst. pose proof (wf_switchTurn st room Hst) as Hsw.
  assert (wf_store (fst (skipByRoll st room dice))) as Hskip.
  { unfold skipByRoll. destruct (switchTurn st room) as [st' [r|why]]; exact Hsw. }
  unfold rollDice.
  destruct (getGameState st room) as [gs|] eqn:Hget; [|assumption].
  destruct (players gs !! currentPlayerIndex gs) as [cp|]; [|assumption].
  destruct (negb (String.eqb (playerId cp) pid)); [assumption|].
  destruct (negb (bool_decide (phase gs = ROLLING))); [assumption|].
  destruct (_ =? 3)%nat eqn:H3; [assumption|].
  destruct (checkValidMoves _ _ _) as [[|]|]; [|assumption|assumption].
  simpl. apply wf_store_save; [assumption|].
  destruct (wf_store_get _ _ _ Hst Hget) as [_ (Hidx & Htbl & Hsix)].
  split; [exact Hidx|]. split; [exact Htbl|]. simpl.
  apply Nat.eqb_neq in H3. destruct (dice =? 6)%nat; lia.
Qed.

Lemma wf_applyMove (st : Store) (gs : GameState) (cp : Player) (dice : nat)
  (tokens : list TokenPosition) (i : nat) (t : TokenPosition) (tid target : string)
  (now : nat) :
  wf_store st -> wf_state gs -> tableGet (color cp) (tokenPositions gs) = Some tokens ->
  wf_store (fst (applyMove st gs cp dice tokens i t tid target now)).
Proof.
  intros Hst Hwf Htok. unfold applyMove.
  set (moved := tableSet (color cp) _ (tokenPositions gs)).
  assert (shape moved = shape (tokenPositions gs)) as Hmoved.
  { eapply tableSet_shape; [exact Htok|apply alter_positionId_ids]. }
  assert (forall tbl last,
            (if captured (detectCollision target (color cp) moved)
             then resolveCaptures
                    (capturedTokens (detectCollision target (color cp) moved))
                    moved None
             else Some (moved, None)) = Some (tbl, last) ->
            shape tbl = shape (tokenPositions gs)) as Hres.
  { intros tbl last H. destruct (captured _).
    - apply resolveCaptures_shape in H. congruence.
    - injection H as <- _. exact Hmoved. }
  destruct (if captured _ then _ else _) as [[tbl last]|]; [|assumption].
  simpl. apply wf_store_save; [assumption|].
  assert (wf_state (set_tokenPositions tbl gs)) as Hwf1.
  { eapply wf_state_same; [| | | |exact Hwf]; simpl; try reflexivity; eauto. }
  destruct (checkWinCondition _ _).
  - pose proof (wf_recordWin now (currentPlayerIndex gs) cp _ Hwf1) as Hwf2.
    eapply wf_state_same; [| | | |exact Hwf2]; reflexivity.
  - eapply wf_state_same; [| | | |exact Hwf1]; reflexivity.
Qed.

Lemma wf_moveToken (st : Store) (room pid tid target : string) (now : nat) :
  wf_store st -> wf_store (fst (moveToken st room pid tid target now)).
Proof.
  intros Hst. unfold moveToken.
  destruct (getGameState st room) as [gs|] eqn:Hget; [|assumption].
  destruct (players gs !! currentPlayerIndex gs) as [cp|]; [|assumption].
  destruct (negb (String.eqb (playerId cp) pid)); [assumption|].
  destruct (negb (bool_decide (phase gs = MOVING))); [assumption|].
  destruct (diceValue gs) as [dice|]; [|assumption].
  destruct (negb (isValidTokenId tid (color cp))); [assumption|].
  destruct (tableGet (color cp) (tokenPositions gs)) as [tokens|] eqn:Htok;
    [|assumption].
  destruct (findToken tid tokens) as [[i t]|]; [|assumption].
  destruct (canMoveToken _ _ _) as [tp|reason]; [|assumption].
  destruct (negb (String.eqb tp target)); [assumption|].
  apply wf_applyMove; try assumption.
  now destruct (wf_store_get _ _ _ Hst Hget).
Qed.

Lemma wf_connectionStatus (st : Store) (room pid : string) (status : ConnectionStatus) :
  wf_store st -> wf_store (Reconnection.updatePlayerConnectionStatus st room pid status).
Proof.
  intros Hst. unfold Reconnection.updatePlayerConnectionStatus.
  destruct (getGameState st room) as [gs|] eqn:Hget; [|assumption].
  destruct (findIndex _ _) as [i|]; [|assumption].
  apply wf_store_save; [assumption|].
  destruct (wf_store_get _ _ _ Hst Hget) as [_ Hwf].
  eapply wf_state_same; [| | | |exact Hwf]; simpl; try reflexivity.
  apply length_alter.
Qed.

Lemma wf_removal (w : Reconnection.World) (pid room : string) :
  wf_store (Reconnection.games w) ->
  wf_store (Reconnection.games (Reconnection.handlePermanentDisconnection w pid room)).
Proof.
  intros Hst. unfold Reconnection.handlePermanentDisconnection.
  destruct (getGameState (Reconnection.games w) room) as [gs|] eqn:Hget; [|assumption].
  simpl. destruct (wf_store_get _ _ _ Hst Hget) as [_ (_ & Htbl & Hsix)].
  destruct (Nat.ltb_spec 0 (length (filter (fun p => playerId p <> pid) (players gs))))
    as [Hpos|_]; [|assumption].
  apply wf_store_save; [assumption|].
  destruct (Nat.leb_spec (length (filter (fun p => playerId p <> pid) (players gs)))
                         (currentPlayerIndex gs)) as [Hle|Hlt];
    (split; [right; simpl; lia|split; [exact Htbl|exact Hsix]]).
Qed.

Lemma reachable_wf (st : Store) : reachable st -> wf_store st.
Proof.
  induction 1.
  - intros key gs H. rewrite lookup_empty in H. discriminate.
  - simpl. apply wf_store_save; [assumption|]. split.
    + unfold indexInRange. simpl. destruct ps; [now left|right; simpl; lia].
    + split; [apply wf_table_initial|simpl; lia].
  - now apply wf_rollDice.
  - now apply wf_moveToken.
  - now apply wf_switchTurn.
  - now apply wf_connectionStatus.
  - now apply wf_removal.
  - intros key gs Hl. unfold deleteGameState in Hl.
    apply lookup_delete_Some in Hl as [_ Hl]. now apply IHreachable.
Qed.

Lemma stored_wf (gs : GameState) : stored gs -> wf_state gs.
Proof.
  intros (st & room & Hr & Hget).
  now destruct (wf_store_get _ _ _ (reachable_wf _ Hr) Hget).
Qed.

End Invariants.

(** C10. For every stored game state with at least one player the scan of
    [switchTurn] stops after [k] iterations for some [k] between 1 and
    [players.length], at the index [(currentPlayerIndex + k) % players.length],
    which holds a player of rank 0 or is the starting index; so [switchTurn]
    returns, having saved the switched state. *)
Theorem switchTurn_terminates (gs : GameState) :
  stored gs -> players gs <> [] ->
  exists next k,
    1 <= k <= length (players gs)
    /\ next = (currentPlayerIndex gs + k) mod length (players gs)
    /\ scanNext k (players gs) (currentPlayerIndex gs) (currentPlayerIndex gs)
       = Returned next
    /\ (exists p, players gs !! next = Some p
                  /\ (rank p = 0 \/ next = currentPlayerIndex gs))
    /\ nextPlayerIndex gs = Returned next
    /\ forall st room, getGameState st room = Some gs ->
         switchTurn st room
         = (saveGameState st (turnSwitched next gs),
            Returned (Some (turnSwitched next gs))).
Proof.
  intros Hst Hne. destruct (stored_wf gs Hst) as [[Hnil|Hc] _]; [contradiction|].
  assert (0 < length (players gs)) as Hn by lia.
  destruct (nextPlayerIndex_first_stop gs (length (players gs)) Hn)
    as (k & Hk & Hret & Hs & Hmin); [lia| |].
  { rewrite (scan_round _ _ Hc). apply stops_true.
    destruct (lookup_lt_is_Some_2 _ _ Hc) as [pc Hpc]. eauto. }
  exists ((currentPlayerIndex gs + k) mod length (players gs)), k.
  split; [lia|]. split; [reflexivity|]. split; [|split; [|split]].
  - destruct (scanNext_stops (players gs) (currentPlayerIndex gs) Hn k
                (currentPlayerIndex gs)) as (k2 & Hk2 & Hret2 & Hs2 & _).
    { exists k. split; [lia|assumption]. }
    destruct (le_lt_dec k k2) as [Hle|Hlt].
    + assert (k2 = k) as <- by lia. exact Hret2.
    + rewrite (Hmin k2) in Hs2; [discriminate|lia].
  - now apply stops_true.
  - exact Hret.
  - intros st room Hget. now apply switchTurn_eq.
Qed.

Lemma switchTurn_terminates_witness :
  exists next, nextPlayerIndex Scenario.fresh = Returned next.
Proof.
  assert (stored Scenario.fresh) as Hst.
  { exists Scenario.freshStore, Scenario.room. split.
    - apply reach_initializeGame, reach_empty.
    - vm_compute. reflexivity. }
  assert (players Scenario.fresh <> []) as Hne by discriminate.
  destruct (switchTurn_terminates Scenario.fresh Hst Hne)
    as (next & k & _ & _ & _ & _ & Hret & _).
  exists next. exact Hret.
Defined.

Lemma switchTurn_selects_unfinished_witness :
  exists gs', switchTurn Scenario.freshStore Scenario.room
              = (saveGameState Scenario.freshStore gs', Returned (Some gs'))
              /\ exists p, players gs' !! currentPlayerIndex gs' = Some p /\ rank p = 0.
Proof.
  assert (getGameState Scenario.freshStore Scenario.room = Some Scenario.fresh) as Hget
    by (vm_compute; reflexivity).
  destruct (switchTurn_selects_unfinished _ _ _ Hget) as [H _].
  destruct H as (next & gs' & Heq & _ & _ & _ & Hp & _).
  - exists Scenario.ann. split; [|reflexivity]. apply elem_of_cons. now left.
  - exists gs'. split; assumption.
Defined.

(** ** Token tables *)

Section TableFacts.

Lemma tokenIds_inj (c c' : PlayerColor) (k k' : nat) (id : string) :
  tokenIds c !! k = Some id -> tokenIds c' !! k' = Some id -> c = c' /\ k = k'.
Proof.
  destruct c, c'; do 5 (try destruct k as [|k]); do 5 (try destruct k' as [|k']);
    simpl; intros H H'; try discriminate; rewrite <- H in H'; try discriminate;
    auto.
Qed.

Lemma baseTokens_lookup (c : PlayerColor) (k : nat) (id : string) :
  tokenIds c !! k = Some id ->
  exists b, BASE_POSITIONS c !! k = Some b
            /\ getBasePosition id c = Some b
            /\ baseTokens c !! k = Some (mkTokenPosition id b).
Proof.
  destruct c; do 5 (try destruct k as [|k]); simpl; intros [= <-];
    eexists; repeat split.
Qed.

Lemma findIndex_from_fmap (id : string) (tokens : list TokenPosition) (k : nat) :
  findIndex_from k (hasTokenId id) tokens = indexOf_from k id (tokenId <$> tokens).
Proof.
  revert k. induction tokens as [|t tokens IH]; intros k; simpl; [reflexivity|].
  unfold hasTokenId at 1. destruct (String.eqb (tokenId t) id); [reflexivity|apply IH].
Qed.

Lemma findIndex_tokenIds (c c0 : PlayerColor) (k0 : nat) (id : string)
  (tokens : list TokenPosition) :
  tokenId <$> tokens = tokenIds c -> tokenIds c0 !! k0 = Some id ->
  findIndex (hasTokenId id) tokens = if decide (c = c0) then Some k0 else None.
Proof.
  intros Hids Hid. unfold findIndex. rewrite findIndex_from_fmap, Hids.
  destruct c, c0; do 5 (try destruct k0 as [|k0]); simpl in Hid;
    try discriminate; injection Hid as <-; reflexivity.
Qed.

Lemma tableGet_tableSet (tbl : TokenTable) (c c' : PlayerColor) (tokens : list TokenPosition) :
  tableGet c' (tableSet c tokens tbl)
  = if decide (c' = c) then Some tokens else tableGet c' tbl.
Proof.
  induction tbl as [|[c1 toks] tbl IH]; simpl.
  - destruct (decide (c = c')) as [->|Hne].
    + now rewrite decide_True.
    + rewrite decide_False by congruence. reflexivity.
  - destruct (decide (c1 = c)) as [->|Hne]; simpl.
    + destruct (decide (c = c')) as [->|Hne'].
      * now rewrite decide_True.
      * rewrite decide_False by congruence. reflexivity.
    + destruct (decide (c1 = c')) as [->|Hne'].
      * rewrite decide_False by congruence. reflexivity.
      * apply IH.
Qed.

Lemma tokensAt_tableSet (tbl : TokenTable) (c : PlayerColor) (target : string)
  (tokens : list TokenPosition) :
  c ∈ fst <$> tbl ->
  tokensAt target c (tableSet c tokens tbl) = tokensAt target c tbl.
Proof.
  induction tbl as [|[c1 toks] tbl IH]; intros Hin; [inversion Hin|].
  cbn [tableSet]. destruct (decide (c1 = c)) as [->|Hne].
  - simpl. case_decide; [reflexivity|contradiction].
  - simpl. case_decide; [contradiction|]. f_equal. apply IH.
    rewrite fmap_cons in Hin. apply elem_of_cons in Hin as [Heq|Hin]; [|assumption].
    simpl in Heq. congruence.
Qed.

Lemma tableGet_keys (tbl : TokenTable) (c : PlayerColor) (tokens : list TokenPosition) :
  tableGet c tbl = Some tokens -> c ∈ fst <$> tbl.
Proof.
  induction tbl as [|[c1 toks] tbl IH]; simpl; [discriminate|].
  destruct (decide (c1 = c)) as [->|Hne]; intros H; apply elem_of_cons; auto.
Qed.

Lemma tokenAt_id (tbl : TokenTable) (c : PlayerColor) (k : nat) (tok : TokenPosition) :
  wf_table tbl -> tokenAt tbl c k = Some tok -> tokenIds c !! k = Some (tokenId tok).
Proof.
  intros Hwf H. unfold tokenAt in H.
  destruct (tableGet c tbl) as [toks|] eqn:Hg; [|discriminate]. simpl in H.
  rewrite <- (tableGet_Some_ids _ _ _ Hwf Hg), list_lookup_fmap, H. reflexivity.
Qed.

(** The opposing tokens on the target cell are the tokens of the slots of
    the other colours whose position is the target. *)
Lemma tokensAt_spec (tbl : TokenTable) (c : PlayerColor) (target : string)
  (tok : TokenPosition) :
  NoDup (fst <$> tbl) ->
  tok ∈ tokensAt target c tbl <->
  exists c' k, c' <> c /\ tokenAt tbl c' k = Some tok /\ positionId tok = target.
Proof.
  induction tbl as [|[c1 toks] tbl IH]; intros Hnd.
  - simpl. split; [intros H; inversion H|]. intros (c' & k & _ & H & _).
    discriminate.
  - rewrite fmap_cons in Hnd. apply NoDup_cons in Hnd as [Hc1 Hnd]. simpl in Hc1.
    specialize (IH Hnd).
    assert (forall c' k, c' <> c1 ->
              tokenAt ((c1, toks) :: tbl) c' k = tokenAt tbl c' k) as Hother.
    { intros c' k Hne. unfold tokenAt. simpl. now rewrite decide_False by congruence. }
    assert (forall k, tokenAt ((c1, toks) :: tbl) c1 k = toks !! k) as Hhere.
    { intros k. unfold tokenAt. simpl. now rewrite decide_True. }
    assert (forall c' k t, tokenAt tbl c' k = Some t -> c' <> c1) as Hrest.
    { intros c' k t H ->. unfold tokenAt in H.
      destruct (tableGet c1 tbl) as [ts|] eqn:Hg; [|discriminate].
      apply Hc1. eapply tableGet_keys; eauto. }
    simpl. destruct (decide (c1 = c)) as [->|Hne].
    + rewrite IH. split; intros (c' & k & Hc' & Hat & Hpos); exists c', k.
      * rewrite Hother by assumption. auto.
      * rewrite Hother in Hat by assumption. auto.
    + rewrite elem_of_app, list_elem_of_filter, IH. split.
      * intros [[Hpos Hin]|(c' & k & Hc' & Hat & Hpos)].
        -- apply list_elem_of_lookup in Hin as [k Hk]. exists c1, k.
           rewrite Hhere. auto.
        -- exists c', k. rewrite Hother by eauto. auto.
      * intros (c' & k & Hc' & Hat & Hpos). destruct (decide (c' = c1)) as [->|Hne1].
        -- left. rewrite Hhere in Hat. split; [assumption|].
           eapply list_elem_of_lookup_2; eauto.
        -- right. exists c', k. rewrite Hother in Hat by assumption. auto.
Qed.

Lemma homeToken_slot (tbl : TokenTable) (c : PlayerColor) (k : nat) (tok : TokenPosition) :
  wf_table tbl -> tokenAt tbl c k = Some tok ->
  exists b, BASE_POSITIONS c !! k = Some b
            /\ getBasePosition (tokenId tok) c = Some b
            /\ forall t, homeToken c k t = mkTokenPosition (tokenId tok) b.
Proof.
  intros Hwf Hat. pose proof (tokenAt_id _ _ _ _ Hwf Hat) as Hid.
  destruct (baseTokens_lookup _ _ _ Hid) as (b & Hb & Hg & Hbt).
  exists b. repeat split; try assumption. intros t. unfold homeToken. now rewrite Hbt.
Qed.

Lemma sendToBase_spec (tbl : TokenTable) (id : string) (c0 : PlayerColor) (k0 : nat) :
  wf_table tbl -> tokenIds c0 !! k0 = Some id -> c0 ∈ fst <$> tbl ->
  exists tbl1,
    sendToBase id tbl = WentToBase tbl1
    /\ forall c k tok, tokenAt tbl c k = Some tok ->
         tokenAt tbl1 c k
         = Some (if decide (tokenId tok = id) then homeToken c k tok else tok).
Proof.
  intros Hwf Hid. induction tbl as [|[c1 toks1] tbl IH]; intros Hin; [inversion Hin|].
  pose proof Hwf as [Hnd Hall]. rewrite fmap_cons in Hnd.
  apply NoDup_cons in Hnd as [Hc1 Hnd]. apply Forall_cons in Hall as [Hids Hall].
  simpl in Hc1, Hids. assert (wf_table tbl) as Hwf' by (split; assumption).
  assert (forall c k tok, c <> c0 -> tokenAt ((c1, toks1) :: tbl) c k = Some tok ->
            tokenId tok <> id) as Hforeign.
  { intros c k tok Hne Hat Heq. apply (tokenAt_id _ _ _ _ Hwf) in Hat.
    rewrite Heq in Hat. destruct (tokenIds_inj _ _ _ _ _ Hat Hid). contradiction. }
  simpl. rewrite (findIndex_tokenIds c1 c0 k0 id toks1 Hids Hid).
  destruct (decide (c1 = c0)) as [->|Hne].
  - destruct (baseTokens_lookup _ _ _ Hid) as (b & Hb & Hg & Hbt). rewrite Hg.
    eexists. split; [reflexivity|]. intros c k tok Hat.
    destruct (decide (c = c0)) as [->|Hc].
    + pose proof (tokenAt_id _ _ _ _ Hwf Hat) as Hk.
      unfold tokenAt in *. simpl in *. rewrite decide_True in * by reflexivity.
      simpl in *. destruct (decide (k = k0)) as [->|Hk0].
      * rewrite list_lookup_alter_eq, Hat. simpl.
        assert (tokenId tok = id) as Htid by congruence.
        rewrite decide_True by assumption. unfold homeToken. rewrite Hbt. simpl.
        unfold set_positionId. now rewrite Htid.
      * rewrite list_lookup_alter_ne by congruence. rewrite Hat.
        rewrite decide_False; [reflexivity|]. intros Heq. rewrite Heq in Hk.
        destruct (tokenIds_inj _ _ _ _ _ Hk Hid). contradiction.
    + rewrite decide_False by (eapply Hforeign; eauto).
      unfold tokenAt in *. simpl in *. now rewrite decide_False in * by congruence.
  - destruct IH as (tbl1 & Hs & Hpt); [assumption| |].
    { apply elem_of_cons in Hin as [Heq|Hin]; [simpl in Heq; congruence|assumption]. }
    rewrite Hs. eexists. split; [reflexivity|]. intros c k tok Hat.
    destruct (decide (c = c1)) as [->|Hc].
    + rewrite decide_False by (eapply Hforeign; eauto).
      unfold tokenAt in *. simpl in *. now rewrite decide_True in * by reflexivity.
    + unfold tokenAt in Hat |- *. simpl in Hat |- *.
      rewrite decide_False in Hat |- * by congruence. now apply Hpt.
Qed.

Lemma shape_keys (tbl tbl' : TokenTable) :
  shape tbl' = shape tbl -> fst <$> tbl' = fst <$> tbl.
Proof.
  intros Hs. apply (f_equal (fmap fst)) in Hs. unfold shape in Hs.
  now rewrite <- !list_fmap_compose in Hs.
Qed.

Lemma resolveCaptures_spec (caps : list TokenPosition) :
  forall (tbl : TokenTable) (prev : option string),
    wf_table tbl ->
    (forall cap, cap ∈ caps ->
       exists c0 k0, tokenIds c0 !! k0 = Some (tokenId cap) /\ c0 ∈ fst <$> tbl) ->
    exists tbl' last',
      resolveCaptures caps tbl prev = Some (tbl', last')
      /\ (caps = [] -> last' = prev)
      /\ forall c k tok, tokenAt tbl c k = Some tok ->
           tokenAt tbl' c k
           = Some (if decide (tokenId tok ∈ tokenId <$> caps)
                   then homeToken c k tok else tok).
Proof.
  induction caps as [|cap caps IH]; intros tbl prev Hwf Hcaps.
  - exists tbl, prev. split; [reflexivity|]. split; [reflexivity|].
    intros c k tok Hat. rewrite decide_False; [assumption|]. apply not_elem_of_nil.
  - destruct (Hcaps cap) as (c0 & k0 & Hid & Hin); [now left|].
    destruct (sendToBase_spec tbl _ c0 k0 Hwf Hid Hin) as (tbl1 & Hs & Hpt1).
    pose proof (sendToBase_shape _ _ _ Hs) as Hshape.
    assert (wf_table tbl1) as Hwf1 by (eapply wf_table_shape; eauto).
    destruct (IH tbl1 (Some (tokenId cap)) Hwf1) as (tbl' & last' & Hr & _ & Hpt).
    { intros cap' Hcap'. destruct (Hcaps cap') as (c0' & k0' & ? & ?); [now right|].
      exists c0', k0'. split; [assumption|]. now rewrite (shape_keys _ _ Hshape). }
    exists tbl', last'. cbn [resolveCaptures]. rewrite Hs. split; [exact Hr|].
    split; [discriminate|]. intros c k tok Hat.
    destruct (homeToken_slot _ _ _ _ Hwf Hat) as (b & Hb & _ & Hhome).
    specialize (Hpt1 c k tok Hat). rewrite (Hpt _ _ _ Hpt1).
    rewrite fmap_cons. f_equal.
    destruct (decide (tokenId tok = tokenId cap)) as [Heq|Hne].
    + rewrite (decide_True (P := tokenId tok ∈ tokenId cap :: (tokenId <$> caps)))
        by (apply elem_of_cons; now left).
      rewrite !Hhome. simpl. case_decide; reflexivity.
    + destruct (decide (tokenId tok ∈ tokenId <$> caps)) as [Hin'|Hnin].
      * rewrite decide_True; [reflexivity|]. apply elem_of_cons. now right.
      * rewrite decide_False; [reflexivity|]. intros H.
        apply elem_of_cons in H as [?|?]; contradiction.
Qed.

End TableFacts.

(** ** moveToken *)

Section MoveFacts.

Lemma findToken_Some (tid : string) (tokens : list TokenPosition) (i : nat)
  (t : TokenPosition) :
  findToken tid tokens = Some (i, t) -> tokens !! i = Some t /\ tokenId t = tid.
Proof.
  unfold findToken. destruct (findIndex (hasTokenId tid) tokens) as [j|] eqn:Hf;
    [|discriminate].
  destruct (tokens !! j) as [u|] eqn:Hu; [|discriminate]. intros [= <- <-].
  split; [assumption|].
  apply findIndex_Some in Hf as [(x & Hx & Hid) _].
  rewrite Hu in Hx. injection Hx as <-. now apply String.eqb_eq.
Qed.

Lemma moveToken_inv (st st' : Store) (room pid tid target : string) (now : nat)
  (out : Outcome MoveResponse) :
  moveToken st room pid tid target now = (st', out) ->
  (st' = st /\ ((exists e, out = Returned (moveFailed e)) \/ out = Stopped Threw))
  \/ (exists gs cp dice tokens i t,
        passes st room pid tid target gs cp dice tokens i t
        /\ applyMove st gs cp dice tokens i t tid target now = (st', out)).
Proof.
  unfold moveToken. intros H.
  destruct (getGameState st room) as [gs|] eqn:Hget;
    [|injection H as <- <-; left; eauto].
  destruct (players gs !! currentPlayerIndex gs) as [cp|] eqn:Hcp;
    [|injection H as <- <-; left; eauto].
  destruct (String.eqb_spec (playerId cp) pid) as [Hpid|_]; simpl in H;
    [|injection H as <- <-; left; eauto].
  destruct (bool_decide (phase gs = MOVING)) eqn:Hph; simpl in H;
    [|injection H as <- <-; left; eauto].
  apply bool_decide_eq_true in Hph.
  destruct (diceValue gs) as [dice|] eqn:Hdice; [|injection H as <- <-; left; eauto].
  destruct (isValidTokenId tid (color cp)) eqn:Hvalid; simpl in H;
    [|injection H as <- <-; left; eauto].
  destruct (tableGet (color cp) (tokenPositions gs)) as [tokens|] eqn:Htok;
    [|injection H as <- <-; left; eauto].
  destruct (findToken tid tokens) as [[i t]|] eqn:Hfind;
    [|injection H as <- <-; left; eauto].
  destruct (canMoveToken (positionId t) dice (color cp)) as [tp|reason] eqn:Hcan;
    [|injection H as <- <-; left; eauto].
  destruct (String.eqb_spec tp target) as [->|_]; simpl in H;
    [|injection H as <- <-; left; eauto].
  right. exists gs, cp, dice, tokens, i, t. unfold passes. repeat split; assumption.
Qed.

Lemma applyMove_outcome (st : Store) (gs : GameState) (cp : Player) (dice : nat)
  (tokens : list TokenPosition) (i : nat) (t : TokenPosition) (tid target : string)
  (now : nat) :
  applyMove st gs cp dice tokens i t tid target now = (st, Stopped IllTyped)
  \/ exists gs' result,
       applyMove st gs cp dice tokens i t tid target now
       = (saveGameState st gs', Returned (mkMoveResponse true (Some result) None)).
Proof.
  unfold applyMove. destruct (if captured _ then _ else _) as [[tbl last]|]; eauto.
Qed.

Lemma recordWin_fields (now idx : nat) (p : Player) (gs : GameState) :
  roomCode (recordWin now idx p gs) = roomCode gs
  /\ currentPlayerIndex (recordWin now idx p gs) = currentPlayerIndex gs
  /\ tokenPositions (recordWin now idx p gs) = tokenPositions gs
  /\ consecutiveSixes (recordWin now idx p gs) = consecutiveSixes gs.
Proof.
  unfold recordWin. destruct (_ =? _)%nat; [|now repeat split].
  destruct (findIndex _ _) as [j|]; [|now repeat split].
  destruct (_ !! j); now repeat split.
Qed.

(** What a move that passed the checks stores, on a well-formed table. *)
Lemma applyMove_spec (st : Store) (gs : GameState) (cp : Player) (dice : nat)
  (tokens : list TokenPosition) (i : nat) (t : TokenPosition) (tid target : string)
  (now : nat) :
  wf_table (tokenPositions gs) ->
  tableGet (color cp) (tokenPositions gs) = Some tokens ->
  let opposing := tokensAt target (color cp) (tokenPositions gs) in
  let capt := negb (isSafeSpot target) && (0 <? length opposing)%nat in
  exists gs' capturedId,
    applyMove st gs cp dice tokens i t tid target now
    = (saveGameState st gs',
       Returned
         (mkMoveResponse true
            (Some (mkMoveResult true tid (positionId t) target capturedId
                                ((dice =? 6)%nat || capt)))
            None))
    /\ (capt = false -> capturedId = None)
    /\ roomCode gs' = roomCode gs
    /\ currentPlayerIndex gs' = currentPlayerIndex gs
    /\ consecutiveSixes gs' = consecutiveSixes gs
    /\ diceValue gs' = None
    /\ phase gs' = ROLLING
    /\ forall c k tok, tokenAt (tokenPositions gs) c k = Some tok ->
         tokenAt (tokenPositions gs') c k
         = Some (if decide (c = color cp)
                 then if decide (k = i) then set_positionId target tok else tok
                 else if isSafeSpot target then tok
                 else if decide (positionId tok = target) then homeToken c k tok
                 else tok).
Proof.
  intros Hwf Htok opposing capt. unfold applyMove.
  set (moved := tableSet (color cp) (alter (set_positionId target) i tokens)
                         (tokenPositions gs)).
  assert (shape moved = shape (tokenPositions gs)) as Hshape.
  { eapply tableSet_shape; [exact Htok|apply alter_positionId_ids]. }
  assert (wf_table moved) as Hwfm by (eapply wf_table_shape; eauto).
  assert (tokensAt target (color cp) moved = opposing) as Hopp.
  { apply tokensAt_tableSet. eapply tableGet_keys; eauto. }
  assert (forall c k tok, tokenAt (tokenPositions gs) c k = Some tok ->
            tokenAt moved c k
            = Some (if decide (c = color cp)
                    then if decide (k = i) then set_positionId target tok else tok
                    else tok)) as Hmoved.
  { intros c k tok Hat. unfold tokenAt in *. unfold moved.
    rewrite tableGet_tableSet. destruct (decide (c = color cp)) as [->|Hne];
      [|assumption].
    rewrite Htok in Hat. simpl in *. destruct (decide (k = i)) as [->|Hk].
    - now rewrite list_lookup_alter_eq, Hat.
    - rewrite list_lookup_alter_ne by congruence. assumption. }
  assert (captured (detectCollision target (color cp) moved) = capt
          /\ capturedTokens (detectCollision target (color cp) moved)
             = if isSafeSpot target then [] else opposing) as [Hcapt Hcaps].
  { unfold detectCollision, capt. rewrite Hopp.
    destruct (isSafeSpot target); split; reflexivity. }
  rewrite Hcapt, Hcaps.
  assert (exists tbl capturedId,
            (if capt
             then resolveCaptures (if isSafeSpot target then [] else opposing)
                                  moved None
             else Some (moved, None)) = Some (tbl, capturedId)
            /\ (capt = false -> capturedId = None)
            /\ forall c k tok, tokenAt (tokenPositions gs) c k = Some tok ->
                 tokenAt tbl c k
                 = Some (if decide (c = color cp)
                         then if decide (k = i) then set_positionId target tok else tok
                         else if isSafeSpot target then tok
                         else if decide (positionId tok = target)
                              then homeToken c k tok else tok))
    as (tbl & capturedId & -> & Hcid & Hpt).
  { destruct capt eqn:Hc.
    - unfold capt in Hc. apply andb_true_iff in Hc as [Hsafe _].
      apply negb_true_iff in Hsafe. rewrite Hsafe.
      destruct (resolveCaptures_spec opposing moved None Hwfm)
        as (tbl & last' & Hr & _ & Hpt).
      { intros cap Hcap. rewrite <- Hopp in Hcap.
        apply tokensAt_spec in Hcap as (c0 & k0 & _ & Hat & _); [|apply Hwfm].
        exists c0, k0. split; [eapply tokenAt_id; eauto|].
        unfold tokenAt in Hat. destruct (tableGet c0 moved) eqn:Hg; [|discriminate].
        eapply tableGet_keys; eauto. }
      exists tbl, last'. split; [exact Hr|]. split; [discriminate|].
      intros c k tok Hat. pose proof (Hmoved c k tok Hat) as Hm.
      rewrite (Hpt _ _ _ Hm). f_equal.
      destruct (decide (c = color cp)) as [->|Hne].
      + rewrite decide_False; [reflexivity|]. intros Hin.
        apply list_elem_of_fmap in Hin as (cap & Hid & Hcap). rewrite <- Hopp in Hcap.
        apply tokensAt_spec in Hcap as (c0 & k0 & Hc0 & Hat0 & _); [|apply Hwfm].
        pose proof (tokenAt_id _ _ _ _ Hwfm Hat0) as Hid0.
        pose proof (tokenAt_id _ _ _ _ Hwfm Hm) as Hidm.
        rewrite Hid in Hidm. destruct (tokenIds_inj _ _ _ _ _ Hid0 Hidm). congruence.
      + destruct (decide (positionId tok = target)) as [Hpos|Hpos].
        * rewrite decide_True; [reflexivity|].
          apply list_elem_of_fmap. exists tok. split; [reflexivity|].
          rewrite <- Hopp. apply tokensAt_spec; [apply Hwfm|]. exists c, k. auto.
        * rewrite decide_False; [reflexivity|]. intros Hin.
          apply list_elem_of_fmap in Hin as (cap & Hid & Hcap). rewrite <- Hopp in Hcap.
          apply tokensAt_spec in Hcap as (c0 & k0 & Hc0 & Hat0 & Hp0); [|apply Hwfm].
          pose proof (tokenAt_id _ _ _ _ Hwfm Hat0) as Hid0.
          pose proof (tokenAt_id _ _ _ _ Hwfm Hm) as Hidm.
          rewrite Hid in Hidm. destruct (tokenIds_inj _ _ _ _ _ Hid0 Hidm) as [-> ->].
          rewrite Hm in Hat0. injection Hat0 as <-. contradiction.
    - exists moved, None. split; [reflexivity|]. split; [reflexivity|].
      intros c k tok Hat. rewrite (Hmoved c k tok Hat). f_equal.
      destruct (decide (c = color cp)) as [->|Hne]; [reflexivity|].
      destruct (isSafeSpot target) eqn:Hsafe; [reflexivity|].
      destruct (decide (positionId tok = target)) as [Hpos|Hpos]; [|reflexivity].
      exfalso. unfold capt in Hc. simpl in Hc. apply Nat.ltb_ge in Hc.
      assert (tok ∈ opposing) as Hin.
      { apply tokensAt_spec; [apply Hwf|]. exists c, k. auto. }
      destruct opposing; [inversion Hin|simpl in Hc; lia]. }
  set (gs1 := set_tokenPositions tbl gs).
  destruct (recordWin_fields now (currentPlayerIndex gs) cp gs1) as (Hr1 & Hr2 & Hr3 & Hr4).
  eexists. exists capturedId. split; [reflexivity|]. split; [exact Hcid|].
  destruct (checkWinCondition _ _); simpl; rewrite ?Hr1, ?Hr2, ?Hr3, ?Hr4;
    repeat split; try reflexivity; exact Hpt.
Qed.

End MoveFacts.

(** C8. A [moveToken] call whose [targetPositionId] differs from the target
    the rules engine computes from the token's stored position and the stored
    dice value is rejected; and whenever [moveToken] does not succeed (it
    returns [success = false], or it throws) the store is left as it was. *)
Theorem moveToken_rejects_mismatch (st st' : Store) (room pid tid target : string)
  (now : nat) (out : Outcome MoveResponse) :
  moveToken st room pid tid target now = (st', out) ->
  (forall gs cp dice tokens i t recomputed,
     getGameState st room = Some gs ->
     players gs !! currentPlayerIndex gs = Some cp ->
     diceValue gs = Some dice ->
     tableGet (color cp) (tokenPositions gs) = Some tokens ->
     findToken tid tokens = Some (i, t) ->
     canMoveToken (positionId t) dice (color cp) = MoveOk recomputed ->
     recomputed <> target ->
     exists e, out = Returned (moveFailed e))
  /\ (forall resp, out = Returned resp -> move_success resp = false ->
        st' = st /\ exists e, resp = moveFailed e)
  /\ (out = Stopped Threw -> st' = st).
Proof.
  intros H. split; [|split].
  - intros gs cp dice tokens i t recomputed Hget Hcp Hdice Htok Hfind Hcan Hne.
    unfold moveToken in H. rewrite Hget, Hcp, Hdice, Htok, Hfind, Hcan in H.
    destruct (negb (String.eqb (playerId cp) pid)); [injection H as _ <-; eauto|].
    destruct (negb (bool_decide (phase gs = MOVING))); [injection H as _ <-; eauto|].
    destruct (negb (isValidTokenId tid (color cp))); [injection H as _ <-; eauto|].
    destruct (String.eqb_spec recomputed target) as [|_]; [contradiction|].
    simpl in H. injection H as _ <-. eauto.
  - intros resp -> Hfail.
    destruct (moveToken_inv _ _ _ _ _ _ _ _ H)
      as [[-> [[e He]|He]]|(gs & cp & dice & tokens & i & t & _ & Happ)].
    + injection He as ->. eauto.
    + discriminate.
    + destruct (applyMove_outcome st gs cp dice tokens i t tid target now)
        as [Hill|(gs' & result & Hok)]; rewrite Happ in *.
      * discriminate.
      * injection Hok as _ ->. discriminate.
  - intros ->.
    destruct (moveToken_inv _ _ _ _ _ _ _ _ H)
      as [[-> _]|(gs & cp & dice & tokens & i & t & _ & Happ)]; [reflexivity|].
    destruct (applyMove_outcome st gs cp dice tokens i t tid target now)
      as [Hill|(gs' & result & Hok)]; rewrite Happ in *; discriminate.
Qed.

Lemma moveToken_rejects_mismatch_witness :
  exists e,
    moveToken Scenario.rolledSix Scenario.room "p1" "RT1" "R20" 5
    = (Scenario.rolledSix, Returned (moveFailed e)).
Proof.
  pose proof (moveToken_rejects_mismatch Scenario.rolledSix _ Scenario.room
                "p1" "RT1" "R20" 5 _ (surjective_pairing _)) as (Hrej & Hkeep & _).
  destruct (Hrej (Scenario.position ["R1"; "R2"; "R3"; "R4"] ["B1"; "B2"; "B3"; "B4"]
                    (Some 6) MOVING 1)
                 Scenario.ann 6
                 (zip_with mkTokenPosition (tokenId <$> baseTokens RED)
                           ["R1"; "R2"; "R3"; "R4"])
                 0 (mkTokenPosition "RT1" "R1") "R10")
    as [e He]; try (vm_compute; reflexivity); [discriminate|].
  exists e. destruct (Hkeep _ He eq_refl) as [Hst _].
  rewrite (surjective_pairing (moveToken _ _ _ _ _ _)). now rewrite Hst, He.
Defined.

(** C7. For every move that [moveToken] applies to a state of a reachable
    store: the collision detected has [captured = false] and no tokens when
    the target is a safe spot, and otherwise has exactly the tokens of the
    other colours standing on the target; afterwards the moved token stands on
    the target, each captured token is back on the base slot of its own
    ordinal ([homeToken], which is where [getBasePosition] sends its id), and
    no other token has moved; a move that captures reports [extraTurn] and
    leaves the dice cleared, the phase ROLLING and the turn where it was, the
    handler switching no turn. *)
Theorem moveToken_captures (st st' : Store) (room pid tid target : string)
  (now : nat) (resp : MoveResponse) :
  reachable st ->
  moveToken st room pid tid target now = (st', Returned resp) ->
  move_success resp = true ->
  exists gs cp dice tokens i t gs' result,
    passes st room pid tid target gs cp dice tokens i t
    /\ st' = saveGameState st gs' /\ getGameState st' room = Some gs'
    /\ move_result resp = Some result
    /\ let opposing := tokensAt target (color cp) (tokenPositions gs) in
       let moved := tableSet (color cp) (alter (set_positionId target) i tokens)
                             (tokenPositions gs) in
       let capt := negb (isSafeSpot target) && (0 <? length opposing)%nat in
       (forall tok, tok ∈ opposing <->
          exists c k, c <> color cp /\ tokenAt (tokenPositions gs) c k = Some tok
                      /\ positionId tok = target)
       /\ detectCollision target (color cp) moved
          = mkCollision capt (if isSafeSpot target then [] else opposing)
       /\ (capt = false -> capturedTokenId result = None)
       /\ (forall c k tok, tokenAt (tokenPositions gs) c k = Some tok ->
             (exists b, BASE_POSITIONS c !! k = Some b
                        /\ getBasePosition (tokenId tok) c = Some b
                        /\ homeToken c k tok = mkTokenPosition (tokenId tok) b)
             /\ tokenAt (tokenPositions gs') c k
                = Some (if decide (c = color cp)
                        then if decide (k = i) then set_positionId target tok else tok
                        else if isSafeSpot target then tok
                        else if decide (positionId tok = target)
                             then homeToken c k tok
                             else tok))
       /\ extraTurn result = ((dice =? 6)%nat || capt)
       /\ (capt = true ->
             extraTurn result = true
             /\ diceValue gs' = None /\ phase gs' = ROLLING
             /\ currentPlayerIndex gs' = currentPlayerIndex gs
             /\ Handlers.handleMoveToken st room pid tid target now = st').
Proof.
  intros Hreach Hmove Hok. pose proof (reachable_wf _ Hreach) as Hst.
  destruct (moveToken_inv _ _ _ _ _ _ _ _ Hmove)
    as [[_ [[e He]|He]]|(gs & cp & dice & tokens & i & t & Hpass & Happ)].
  - injection He as ->. discriminate.
  - discriminate.
  - pose proof Hpass as (Hget & Hcp & _ & _ & Hdice & _ & Htok & Hfind & _).
    destruct (wf_store_get _ _ _ Hst Hget) as [Hroom (_ & Hwf & _)].
    destruct (applyMove_spec st gs cp dice tokens i t tid target now Hwf Htok)
      as (gs' & capturedId & Heq & Hcid & Hrc & Hidx & _ & Hd & Hph & Hpt).
    rewrite Heq in Happ. injection Happ as <- <-.
    assert (getGameState (saveGameState st gs') room = Some gs') as Hget'.
    { rewrite <- Hroom, <- Hrc. apply getGameState_save. }
    exists gs, cp, dice, tokens, i, t, gs'. eexists.
    split; [exact Hpass|]. split; [reflexivity|]. split; [exact Hget'|].
    split; [reflexivity|]. cbv zeta. split; [|split; [|split; [|split; [|split]]]].
    + intros tok. apply tokensAt_spec, Hwf.
    + unfold detectCollision. rewrite tokensAt_tableSet by (eapply tableGet_keys; eauto).
      now destruct (isSafeSpot target).
    + exact Hcid.
    + intros c k tok Hat. split; [|now apply Hpt].
      destruct (homeToken_slot _ _ _ _ Hwf Hat) as (b & Hb & Hg & Hh). eauto.
    + reflexivity.
    + intros Hcapt. simpl. rewrite Hcapt, orb_true_r.
      repeat split; try assumption.
      unfold Handlers.handleMoveToken. rewrite Hmove. simpl. rewrite Hget'. simpl.
      now rewrite Hcapt, orb_true_r.
Qed.

(** ** rollDice *)

Section RollFacts.

Lemma rollDice_continue_inv (st st' : Store) (room pid : string) (dice : nat) :
  rollDice st room pid dice = (st', Returned (rolled dice false)) ->
  exists gs cp,
    getGameState st room = Some gs
    /\ players gs !! currentPlayerIndex gs = Some cp
    /\ playerId cp = pid
    /\ phase gs = ROLLING
    /\ (if (dice =? 6)%nat then S (consecutiveSixes gs) else 0) <> 3
    /\ st' = saveGameState st
               (set_phase MOVING
                  (set_diceValue (Some dice)
                     (set_consecutiveSixes
                        (if (dice =? 6)%nat then S (consecutiveSixes gs) else 0) gs))).
Proof.
  unfold rollDice. intros H.
  assert (forall st1, skipByRoll st room dice <> (st1, Returned (rolled dice false)))
    as Hskip.
  { unfold skipByRoll. intros st1. destruct (switchTurn st room) as [s [r|why]];
      discriminate. }
  destruct (getGameState st room) as [gs|] eqn:Hget; [|discriminate].
  destruct (players gs !! currentPlayerIndex gs) as [cp|] eqn:Hcp; [|discriminate].
  destruct (String.eqb_spec (playerId cp) pid) as [Hpid|_]; [|discriminate].
  destruct (bool_decide (phase gs = ROLLING)) eqn:Hph; [|discriminate].
  apply bool_decide_eq_true in Hph. simpl in H.
  destruct (_ =? 3)%nat eqn:H3; [now apply Hskip in H|].
  apply Nat.eqb_neq in H3.
  destruct (checkValidMoves _ _ _) as [[|]|]; [| |discriminate].
  - injection H as <-. exists gs, cp. repeat split; try assumption; reflexivity.
  - now apply Hskip in H.
Qed.

Lemma alter_rank_ids (r i : nat) (ps : list Player) :
  playerId <$> alter (set_rank r) i ps = playerId <$> ps.
Proof.
  revert i. induction ps as [|p ps IH]; intros [|i]; simpl; try reflexivity.
  f_equal. apply IH.
Qed.

Lemma recordWin_ids (now idx : nat) (p : Player) (gs : GameState) :
  playerId <$> players (recordWin now idx p gs) = playerId <$> players gs.
Proof.
  unfold recordWin. destruct (_ =? _)%nat; simpl; [|apply alter_rank_ids].
  destruct (findIndex _ _) as [j|]; simpl; [|apply alter_rank_ids].
  destruct (_ !! j); simpl; rewrite ?alter_rank_ids; reflexivity.
Qed.

(** What every applied move leaves in the state, whatever the table. *)
Lemma applyMove_fields (st st' : Store) (gs : GameState) (cp : Player) (dice : nat)
  (tokens : list TokenPosition) (i : nat) (t : TokenPosition) (tid target : string)
  (now : nat) (resp : MoveResponse) :
  applyMove st gs cp dice tokens i t tid target now = (st', Returned resp) ->
  exists gs' result,
    st' = saveGameState st gs'
    /\ move_result resp = Some result
    /\ ((dice =? 6)%nat = true -> extraTurn result = true)
    /\ roomCode gs' = roomCode gs
    /\ currentPlayerIndex gs' = currentPlayerIndex gs
    /\ consecutiveSixes gs' = consecutiveSixes gs
    /\ diceValue gs' = None
    /\ phase gs' = ROLLING
    /\ playerId <$> players gs' = playerId <$> players gs.
Proof.
  unfold applyMove. destruct (if captured _ then _ else _) as [[tbl last]|];
    [|discriminate].
  intros [= <- <-]. eexists. eexists. split; [reflexivity|]. split; [reflexivity|].
  split; [simpl; now intros ->|].
  set (gs1 := set_tokenPositions tbl gs).
  destruct (recordWin_fields now (currentPlayerIndex gs) cp gs1) as (H1 & H2 & _ & H4).
  pose proof (recordWin_ids now (currentPlayerIndex gs) cp gs1) as H5.
  destruct (checkWinCondition _ _); simpl; rewrite ?H1, ?H2, ?H4, ?H5;
    repeat split; reflexivity.
Qed.

(** A successful move keeps the turn with the player who made it. *)
Lemma moveToken_keeps_turn (st st' : Store) (room pid tid target : string) (now : nat)
  (resp : MoveResponse) (gs : GameState) :
  roomCode gs = room ->
  getGameState st room = Some gs ->
  moveToken st room pid tid target now = (st', Returned resp) ->
  move_success resp = true ->
  exists gs' cp' result,
    st' = saveGameState st gs'
    /\ getGameState st' room = Some gs'
    /\ roomCode gs' = room
    /\ players gs' !! currentPlayerIndex gs' = Some cp'
    /\ playerId cp' = pid
    /\ currentPlayerIndex gs' = currentPlayerIndex gs
    /\ consecutiveSixes gs' = consecutiveSixes gs
    /\ diceValue gs' = None
    /\ phase gs' = ROLLING
    /\ move_result resp = Some result
    /\ (diceValue gs = Some 6 -> extraTurn result = true).
Proof.
  intros Hroom Hget Hmove Hok.
  destruct (moveToken_inv _ _ _ _ _ _ _ _ Hmove)
    as [[_ [[e He]|He]]|(gs0 & cp & dice & tokens & i & t & Hpass & Happ)].
  - injection He as ->. discriminate.
  - discriminate.
  - destruct Hpass as (Hget0 & Hcp & Hpid & _ & Hdice & _).
    rewrite Hget in Hget0. injection Hget0 as <-.
    destruct (applyMove_fields _ _ _ _ _ _ _ _ _ _ _ _ Happ)
      as (gs' & result & -> & Hres & Hextra & Hrc & Hidx & Hsix & Hd & Hph & Hids).
    assert (exists cp', players gs' !! currentPlayerIndex gs' = Some cp'
                        /\ playerId cp' = pid) as (cp' & Hcp' & Hpid').
    { rewrite Hidx.
      assert ((playerId <$> players gs') !! currentPlayerIndex gs = Some pid) as Hl.
      { rewrite Hids, list_lookup_fmap, Hcp. simpl. now rewrite Hpid. }
      rewrite list_lookup_fmap in Hl.
      destruct (players gs' !! currentPlayerIndex gs) as [q|]; [|discriminate].
      injection Hl as Hq. eauto. }
    exists gs', cp', result. repeat split; try assumption; try congruence.
    + rewrite <- Hroom, <- Hrc. apply getGameState_save.
    + intros H6. rewrite Hdice in H6. injection H6 as ->. now apply Hextra.
Qed.

(** The scan of [switchTurn] returns when the current index designates a
    player; it moves on to a player of rank 0 when another one has rank 0. *)
Lemma nextPlayerIndex_in_range (gs : GameState) :
  currentPlayerIndex gs < length (players gs) ->
  exists next,
    nextPlayerIndex gs = Returned next
    /\ next < length (players gs)
    /\ ((exists j q, j <> currentPlayerIndex gs /\ players gs !! j = Some q
                     /\ rank q = 0) ->
        next <> currentPlayerIndex gs
        /\ exists q, players gs !! next = Some q /\ rank q = 0).
Proof.
  intros Hc. assert (0 < length (players gs)) as Hn by lia.
  destruct (nextPlayerIndex_first_stop gs (length (players gs)) Hn)
    as (k & Hk & Hret & Hs & Hmin); [lia| |].
  { rewrite (scan_round _ _ Hc). apply stops_true.
    destruct (lookup_lt_is_Some_2 _ _ Hc) as [pc Hpc]. eauto. }
  eexists. split; [exact Hret|]. split; [apply Nat.mod_upper_bound; lia|].
  intros (j & q & Hj & Hq & Hrank).
  pose proof (lookup_lt_Some _ _ _ Hq) as Hjlt.
  destruct (scan_cover (players gs) Hn (currentPlayerIndex gs) j Hjlt)
    as (k0 & Hk0 & Hidx).
  assert (k0 <> length (players gs)) as Hk0n.
  { intros ->. rewrite (scan_round _ _ Hc) in Hidx. congruence. }
  assert (k <= k0) as Hle.
  { destruct (le_lt_dec k k0) as [|Hlt]; [assumption|].
    assert (stops (players gs) (currentPlayerIndex gs) j = true) as Hsj
      by (apply stops_true; eauto).
    rewrite <- Hidx, (Hmin k0) in Hsj; [discriminate|lia]. }
  assert ((currentPlayerIndex gs + k) mod length (players gs) <> currentPlayerIndex gs)
    as Hmoved by (apply scan_not_back; [assumption|lia]).
  split; [assumption|].
  apply stops_true in Hs as (pj & Hpj & [Hz|Hback]); [eauto|contradiction].
Qed.

End RollFacts.

Lemma reachable_play (script : list Scenario.Call) : reachable (Scenario.play script).
Proof.
  unfold Scenario.play.
  assert (reachable Scenario.freshStore) as H
    by apply reach_initializeGame, reach_empty.
  revert H. generalize Scenario.freshStore.
  induction script as [|c script IH]; intros st Hst; simpl; [assumption|].
  apply IH. destruct c; simpl; now constructor.
Qed.

Lemma rollDice_third_six (st : Store) (room pid : string) (gs : GameState) (cp : Player) :
  getGameState st room = Some gs ->
  players gs !! currentPlayerIndex gs = Some cp ->
  playerId cp = pid ->
  phase gs = ROLLING ->
  consecutiveSixes gs = 2 ->
  exists next,
    nextPlayerIndex gs = Returned next
    /\ rollDice st room pid 6
       = (saveGameState st (turnSwitched next gs), Returned (rolled 6 true))
    /\ ((exists j q, j <> currentPlayerIndex gs /\ players gs !! j = Some q
                     /\ rank q = 0) ->
        next <> currentPlayerIndex gs
        /\ exists q, players gs !! next = Some q /\ rank q = 0).
Proof.
  intros Hget Hcp Hpid Hph Hsix.
  destruct (nextPlayerIndex_in_range gs (lookup_lt_Some _ _ _ Hcp))
    as (next & Hnext & _ & Hother).
  exists next. split; [assumption|]. split; [|assumption].
  unfold rollDice, skipByRoll. rewrite Hget, Hcp, Hpid, String.eqb_refl, Hph, Hsix.
  simpl. now rewrite (switchTurn_eq _ _ _ _ Hget Hnext).
Qed.

(** C6. From any store the server reaches: when a player rolls a six and
    moves, rolls a second six and moves, the counter of sixes stands at 2, and
    the third six ends the turn. [rollDice] returns [skipTurn = true] and the
    stored state has [consecutiveSixes = 0], no dice value, phase ROLLING and
    the index [switchTurn] computes, which designates another player, of
    rank 0, when one exists. *)
Theorem third_six_ends_turn (st0 st1 st2 st3 st4 : Store)
  (room pid tid1 target1 tid2 target2 : string) (now1 now2 : nat)
  (resp1 resp2 : MoveResponse) (gs0 : GameState) :
  reachable st0 ->
  getGameState st0 room = Some gs0 ->
  rollDice st0 room pid 6 = (st1, Returned (rolled 6 false)) ->
  moveToken st1 room pid tid1 target1 now1 = (st2, Returned resp1) ->
  move_success resp1 = true ->
  rollDice st2 room pid 6 = (st3, Returned (rolled 6 false)) ->
  moveToken st3 room pid tid2 target2 now2 = (st4, Returned resp2) ->
  move_success resp2 = true ->
  exists gs4 next gs5,
    getGameState st4 room = Some gs4
    /\ consecutiveSixes gs4 = 2
    /\ nextPlayerIndex gs4 = Returned next
    /\ gs5 = turnSwitched next gs4
    /\ rollDice st4 room pid 6 = (saveGameState st4 gs5, Returned (rolled 6 true))
    /\ getGameState (saveGameState st4 gs5) room = Some gs5
    /\ consecutiveSixes gs5 = 0
    /\ diceValue gs5 = None
    /\ phase gs5 = ROLLING
    /\ currentPlayerIndex gs5 = next
    /\ ((exists j q, j <> currentPlayerIndex gs4 /\ players gs4 !! j = Some q
                     /\ rank q = 0) ->
        next <> currentPlayerIndex gs4
        /\ exists q, players gs4 !! next = Some q /\ rank q = 0).
Proof.
  intros Hreach Hget0 Hroll1 Hmove1 Hok1 Hroll2 Hmove2 Hok2.
  destruct (wf_store_get _ _ _ (reachable_wf _ Hreach) Hget0)
    as [Hroom (_ & _ & Hmax)].
  destruct (rollDice_continue_inv _ _ _ _ _ Hroll1)
    as (gs0' & cp0 & Hget0' & _ & _ & _ & Hnot1 & ->).
  rewrite Hget0 in Hget0'. injection Hget0' as <-.
  set (gs1 := set_phase MOVING _) in *.
  assert (getGameState (saveGameState st0 gs1) room = Some gs1) as Hget1.
  { rewrite <- Hroom. apply (getGameState_save st0 gs1). }
  destruct (moveToken_keeps_turn _ _ _ _ _ _ _ _ gs1 Hroom Hget1 Hmove1 Hok1)
    as (gs2 & cp2 & r1 & -> & Hget2 & Hroom2 & _ & _ & _ & Hsix2 & _).
  destruct (rollDice_continue_inv _ _ _ _ _ Hroll2)
    as (gs2' & cp2' & Hget2' & _ & _ & _ & Hnot2 & ->).
  rewrite Hget2 in Hget2'. injection Hget2' as <-.
  set (gs3 := set_phase MOVING (set_diceValue (Some 6) (set_consecutiveSixes _ gs2)))
    in *.
  assert (roomCode gs3 = room) as Hroom3 by exact Hroom2.
  assert (getGameState (saveGameState (saveGameState (saveGameState st0 gs1) gs2) gs3)
                       room = Some gs3) as Hget3.
  { rewrite <- Hroom3. apply getGameState_save. }
  destruct (moveToken_keeps_turn _ _ _ _ _ _ _ _ gs3 Hroom3 Hget3 Hmove2 Hok2)
    as (gs4 & cp4 & r2 & -> & Hget4 & Hroom4 & Hcp4 & Hpid4 & _ & Hsix4 & _ & Hph4 & _).
  assert (consecutiveSixes gs4 = 2) as Htwo.
  { rewrite Hsix4. unfold gs3. simpl. rewrite Hsix2 in *. unfold gs1 in *.
    simpl in *. lia. }
  destruct (rollDice_third_six _ _ _ _ _ Hget4 Hcp4 Hpid4 Hph4 Htwo)
    as (next & Hnext & Hroll3 & Hother).
  exists gs4, next, (turnSwitched next gs4).
  split; [assumption|]. split; [assumption|]. split; [assumption|].
  split; [reflexivity|]. split; [assumption|]. split.
  { rewrite <- Hroom4. apply (getGameState_save _ (turnSwitched next gs4)). }
  split; [reflexivity|]. split; [reflexivity|]. split; [reflexivity|].
  split; [reflexivity|]. exact Hother.
Qed.

Lemma third_six_ends_turn_witness :
  exists st5 gs5,
    rollDice Scenario.twoSixes Scenario.room "p1" 6 = (st5, Returned (rolled 6 true))
    /\ getGameState st5 Scenario.room = Some gs5
    /\ consecutiveSixes gs5 = 0 /\ diceValue gs5 = None.
Proof.
  destruct (third_six_ends_turn
              (Scenario.play [])
              (Scenario.play [Scenario.Roll "p1" 6])
              (Scenario.play [Scenario.Roll "p1" 6; Scenario.Move "p1" "RT1" "R10"])
              (Scenario.play [Scenario.Roll "p1" 6; Scenario.Move "p1" "RT1" "R10";
                              Scenario.Roll "p1" 6])
              Scenario.twoSixes
              Scenario.room "p1" "RT1" "R10" "RT1" "G04" 0 0
              (mkMoveResponse true
                 (Some (mkMoveResult true "RT1" "R1" "R10" None true)) None)
              (mkMoveResponse true
                 (Some (mkMoveResult true "RT1" "R10" "G04" None true)) None)
              Scenario.fresh)
    as (gs4 & next & gs5 & _ & _ & _ & _ & Hroll & Hget & Hsix & Hdice & _);
    try (vm_compute; reflexivity).
  - apply (reachable_play []).
  - exists (saveGameState Scenario.twoSixes gs5), gs5. auto.
Defined.

(** C2, as the specification states it, fails: a six rolled in phase ROLLING
    by the current player who has no legal move hands the turn to the next
    player. *)
Lemma six_without_move_passes_turn :
  ~ (forall (st st' : Store) (room pid : string) (gs : GameState) (cp : Player)
            (out : Outcome RollResponse),
       getGameState st room = Some gs ->
       players gs !! currentPlayerIndex gs = Some cp ->
       playerId cp = pid ->
       phase gs = ROLLING ->
       rollDice st room pid 6 = (st', out) ->
       exists gs', getGameState st' room = Some gs'
                   /\ diceValue gs' = None /\ phase gs' = ROLLING
                   /\ currentPlayerIndex gs' = currentPlayerIndex gs).
Proof.
  intros H.
  destruct (H (Scenario.storeOf Scenario.stuck) _ Scenario.room "p1" Scenario.stuck
              Scenario.ann _ eq_refl eq_refl eq_refl eq_refl (surjective_pairing _))
    as (gs' & Hget & _ & _ & Hidx).
  vm_compute in Hget. injection Hget as <-. discriminate Hidx.
Qed.

(** C2, amended. A six rolled in phase ROLLING by the current player ends
    the turn when it is the third in a row or when none of the player's
    tokens can move by six: [rollDice] reports [skipTurn = true] and the
    state [switchTurn] computes is stored. Otherwise [rollDice] stores the six
    with phase MOVING and the same [currentPlayerIndex], and the successful
    [moveToken] that follows grants the extra turn: [extraTurn] is reported,
    the dice is cleared, the phase is ROLLING, [currentPlayerIndex] is
    unchanged and the handler switches no turn. *)
Theorem rollDice_six (st : Store) (room pid : string) (gs : GameState) (cp : Player)
  (tokens : list TokenPosition) :
  reachable st ->
  getGameState st room = Some gs ->
  players gs !! currentPlayerIndex gs = Some cp ->
  playerId cp = pid ->
  phase gs = ROLLING ->
  tableGet (color cp) (tokenPositions gs) = Some tokens ->
  let legal :=
    existsb (fun tok => valid (canMoveToken (positionId tok) 6 (color cp))) tokens in
  let third := (consecutiveSixes gs =? 2)%nat in
  (third || negb legal = true ->
   exists next,
     nextPlayerIndex gs = Returned next
     /\ rollDice st room pid 6
        = (saveGameState st (turnSwitched next gs), Returned (rolled 6 true)))
  /\ (third || negb legal = false ->
      exists gs1,
        rollDice st room pid 6 = (saveGameState st gs1, Returned (rolled 6 false))
        /\ getGameState (saveGameState st gs1) room = Some gs1
        /\ diceValue gs1 = Some 6 /\ phase gs1 = MOVING
        /\ currentPlayerIndex gs1 = currentPlayerIndex gs
        /\ forall tid target now st2 resp,
             moveToken (saveGameState st gs1) room pid tid target now
             = (st2, Returned resp) ->
             move_success resp = true ->
             exists gs2 result,
               getGameState st2 room = Some gs2
               /\ move_result resp = Some result
               /\ extraTurn result = true
               /\ diceValue gs2 = None /\ phase gs2 = ROLLING
               /\ currentPlayerIndex gs2 = currentPlayerIndex gs
               /\ Handlers.handleMoveToken (saveGameState st gs1) room pid tid target now
                  = st2).
Proof.
  intros Hreach Hget Hcp Hpid Hph Htok legal third.
  destruct (wf_store_get _ _ _ (reachable_wf _ Hreach) Hget) as [Hroom _].
  destruct (nextPlayerIndex_in_range gs (lookup_lt_Some _ _ _ Hcp))
    as (next & Hnext & _).
  assert (rollDice st room pid 6
          = if third || negb legal
            then (saveGameState st (turnSwitched next gs), Returned (rolled 6 true))
            else (saveGameState st
                    (set_phase MOVING
                       (set_diceValue (Some 6)
                          (set_consecutiveSixes (S (consecutiveSixes gs)) gs))),
                  Returned (rolled 6 false))) as Hroll.
  { unfold rollDice, skipByRoll, checkValidMoves.
    rewrite Hget, Hcp, Hpid, String.eqb_refl, Hph. simpl.
    rewrite (switchTurn_eq _ _ _ _ Hget Hnext), Htok.
    fold third. fold legal. destruct third, legal; reflexivity. }
  split; intros Hcase; rewrite Hcase in Hroll.
  - exists next. split; assumption.
  - set (gs1 := set_phase MOVING _) in *.
    assert (getGameState (saveGameState st gs1) room = Some gs1) as Hget1.
    { rewrite <- Hroom. apply (getGameState_save st gs1). }
    exists gs1. split; [assumption|]. split; [assumption|].
    split; [reflexivity|]. split; [reflexivity|]. split; [reflexivity|].
    intros tid target now st2 resp Hmove Hok.
    destruct (moveToken_keeps_turn _ _ _ _ _ _ _ _ gs1 Hroom Hget1 Hmove Hok)
      as (gs2 & cp2 & result & -> & Hget2 & _ & _ & _ & Hidx & _ & Hd & Hph2
          & Hres & Hextra).
    specialize (Hextra eq_refl).
    exists gs2, result. repeat split; try assumption.
    unfold Handlers.handleMoveToken. rewrite Hmove, Hok, Hget2, Hres, Hextra.
    reflexivity.
Qed.

Lemma rollDice_six_witness :
  (exists next,
     rollDice (Scenario.play []) Scenario.room "p1" 6
     = (saveGameState (Scenario.play []) (turnSwitched next Scenario.fresh),
        Returned (rolled 6 true)))
  \/ (exists gs1,
        rollDice (Scenario.play []) Scenario.room "p1" 6
        = (saveGameState (Scenario.play []) gs1, Returned (rolled 6 false))
        /\ phase gs1 = MOVING).
Proof.
  destruct (rollDice_six (Scenario.play []) Scenario.room "p1" Scenario.fresh
              Scenario.ann (baseTokens RED)
              (reachable_play []) eq_refl eq_refl eq_refl eq_refl eq_refl)
    as [_ Hmove].
  right. destruct (Hmove eq_refl) as (gs1 & Hroll & _ & _ & Hph & _).
  exists gs1. split; assumption.
Defined.

(** ** The end of a game *)

(** Whatever [moveToken] applies, the state it stores is in phase ROLLING:
    the assignment of [FINISHED] in the win branch is overwritten by the
    extra-turn branches that follow it. *)
Lemma moveToken_stores_rolling (st st' : Store) (room pid tid target : string)
  (now : nat) (resp : MoveResponse) :
  moveToken st room pid tid target now = (st', Returned resp) ->
  move_success resp = true ->
  exists gs', st' = saveGameState st gs' /\ phase gs' = ROLLING.
Proof.
  intros Hmove Hok.
  destruct (moveToken_inv _ _ _ _ _ _ _ _ Hmove)
    as [[_ [[e He]|He]]|(gs & cp & dice & tokens & i & t & _ & Happ)].
  - injection He as ->. discriminate.
  - discriminate.
  - destruct (applyMove_fields _ _ _ _ _ _ _ _ _ _ _ _ Happ)
      as (gs' & result & -> & _ & _ & _ & _ & _ & _ & Hph & _).
    eauto.
Qed.

(** C1, on the code. In a game of two, Ann brings her last token home: she
    is ranked first and Bob, the only player left, is appended with rank 2,
    [finishedAt] is set; but the stored phase is ROLLING, not FINISHED, the
    handler goes on to switch the turn, and the next [rollDice] is accepted. *)
Theorem finished_game_is_stored_rolling :
  let st := Scenario.storeOf Scenario.lastStep in
  let st' := fst (moveToken st Scenario.room "p1" "RT4" "RF" 9) in
  snd (moveToken st Scenario.room "p1" "RT4" "RF" 9)
  = Returned (mkMoveResponse true
                (Some (mkMoveResult true "RT4" "R51" "RF" None false)) None)
  /\ rankings <$> getGameState st' Scenario.room
     = Some [mkPlayerRank "p1" 1 9; mkPlayerRank "p2" 2 9]
  /\ (fmap rank ∘ players) <$> getGameState st' Scenario.room = Some [1; 2]
  /\ finishedAt <$> getGameState st' Scenario.room = Some (Some 9)
  /\ phase <$> getGameState st' Scenario.room = Some ROLLING
  /\ phase <$> getGameState st' Scenario.room <> Some FINISHED
  /\ Handlers.handleMoveToken st Scenario.room "p1" "RT4" "RF" 9
     = fst (switchTurn st' Scenario.room)
  /\ snd (rollDice st' Scenario.room "p1" 3) = Returned (rolled 3 true).
Proof.
  cbv zeta.
  split; [vm_compute; reflexivity|]. split; [vm_compute; reflexivity|].
  split; [vm_compute; reflexivity|]. split; [vm_compute; reflexivity|].
  split; [vm_compute; reflexivity|]. split; [vm_compute; discriminate|].
  split; vm_compute; reflexivity.
Qed.

(** ** Matchmaking *)

Section MatchFacts.
Import Matchmaking.

Lemma filter_eligible (queued : list QueuedPlayer) (size : nat) :
  filter (eligible size) queued = filter (atLeast size) queued.
Proof.
  apply list_filter_iff. intros p. unfold eligible, atLeast. lia.
Qed.

Lemma findMatchBySize_spec (queued : list QueuedPlayer) (size : nat) :
  findMatchBySize queued size
  = if decide (size <= length (filter (atLeast size) queued))
    then Some (take size (filter (atLeast size) queued))
    else None.
Proof.
  unfold findMatchBySize. rewrite filter_eligible.
  pose proof (length_filter (atLeast size) queued) as Hle.
  destruct (Nat.ltb_spec (length queued) size) as [Hlt|Hge].
  - rewrite decide_False by lia. reflexivity.
  - destruct (Nat.leb_spec size (length (filter (atLeast size) queued))).
    + now rewrite decide_True by lia.
    + now rewrite decide_False by lia.
Qed.

End MatchFacts.

(** C3, as the specification states it, fails: with the oldest queued player
    asking for four players and two more asking for three, a match of three
    forms and includes the player who asked for four. *)
Lemma findMatch_mixes_preferences :
  ~ (forall (queued m : list Matchmaking.QueuedPlayer),
       Matchmaking.findMatch queued = Some m ->
       forall p, p ∈ m -> Matchmaking.preferredPlayers p = length m).
Proof.
  intros H.
  specialize (H Scenario.waiting Scenario.waiting eq_refl
                (Matchmaking.mkQueuedPlayer "a" "A" 4 1)).
  assert (4 = 3) as Habs; [|discriminate].
  apply H. apply elem_of_cons. now left.
Qed.

(** C3, amended. [findMatch] forms a match of size N, for N tried as 4, then
    3, then 2, exactly when at least N queued players have
    [preferredPlayers >= N] and no larger size tried before has enough such
    players; the match is the N oldest of these players in queue order, so
    no player with [preferredPlayers] below N is in it. *)
Theorem findMatch_at_least (queued : list Matchmaking.QueuedPlayer) :
  (forall m,
     Matchmaking.findMatch queued = Some m <->
     exists N,
       (N = 4 \/ N = 3 \/ N = 2)
       /\ N <= length (filter (Matchmaking.atLeast N) queued)
       /\ (forall M, M = 4 \/ M = 3 -> N < M ->
             length (filter (Matchmaking.atLeast M) queued) < M)
       /\ m = take N (filter (Matchmaking.atLeast N) queued))
  /\ (forall m,
        Matchmaking.findMatch queued = Some m ->
        (length m = 4 \/ length m = 3 \/ length m = 2)
        /\ forall p, p ∈ m -> length m <= Matchmaking.preferredPlayers p).
Proof.
  assert (forall m,
            Matchmaking.findMatch queued = Some m <->
            exists N,
              (N = 4 \/ N = 3 \/ N = 2)
              /\ N <= length (filter (Matchmaking.atLeast N) queued)
              /\ (forall M, M = 4 \/ M = 3 -> N < M ->
                    length (filter (Matchmaking.atLeast M) queued) < M)
              /\ m = take N (filter (Matchmaking.atLeast N) queued)) as Hiff.
  { intros m. unfold Matchmaking.findMatch. rewrite !findMatchBySize_spec.
    pose proof (length_filter (Matchmaking.atLeast 4) queued) as H4.
    pose proof (length_filter (Matchmaking.atLeast 3) queued) as H3.
    pose proof (length_filter (Matchmaking.atLeast 2) queued) as H2.
    destruct (Nat.ltb_spec (length queued) 2) as [Hshort|Hlong].
    - split; [discriminate|]. intros (N & [-> | [-> | ->]] & Hn & _); lia.
    - repeat case_decide; split.
      + intros [= <-]. exists 4. repeat split; auto; intros M [-> | ->]; lia.
      + intros (N & [-> | [-> | ->]] & Hn & Hno & ->); try reflexivity.
        * specialize (Hno 4 (or_introl eq_refl)). lia.
        * specialize (Hno 4 (or_introl eq_refl)). lia.
      + intros [= <-]. exists 3. repeat split; auto; intros M [-> | ->]; lia.
      + intros (N & [-> | [-> | ->]] & Hn & Hno & ->); try reflexivity; try lia.
        specialize (Hno 3 (or_intror eq_refl)). lia.
      + intros [= <-]. exists 2. repeat split; auto; intros M [-> | ->]; lia.
      + intros (N & [-> | [-> | ->]] & Hn & Hno & ->); try reflexivity; lia.
      + discriminate.
      + intros (N & [-> | [-> | ->]] & Hn & _); lia. }
  split; [exact Hiff|].
  intros m Hm. apply Hiff in Hm as (N & HN & Hn & _ & ->).
  rewrite length_take, Nat.min_l by assumption. split; [assumption|].
  intros p Hp. apply elem_of_take in Hp as (i & Hp & _).
  apply list_elem_of_lookup_2, list_elem_of_filter in Hp as [Hp _]. exact Hp.
Qed.

Lemma reachable_beforeCapture : reachable Scenario.beforeCapture.
Proof. unfold Scenario.beforeCapture. apply reachable_play. Qed.

Lemma moveToken_captures_witness :
  exists gs',
    getGameState (fst (moveToken Scenario.beforeCapture Scenario.room
                                 "p2" "BT1" "G05" 0))
                 Scenario.room = Some gs'
    /\ tokenAt (tokenPositions gs') RED 0 = Some (mkTokenPosition "RT1" "R1").
Proof.
  assert (moveToken Scenario.beforeCapture Scenario.room "p2" "BT1" "G05" 0
          = (fst (moveToken Scenario.beforeCapture Scenario.room "p2" "BT1" "G05" 0),
             Returned
               (mkMoveResponse true
                  (Some (mkMoveResult true "BT1" "R50" "G05" (Some "RT1") true))
                  None))) as Hmove by (vm_compute; reflexivity).
  destruct (moveToken_captures _ _ _ _ _ _ _ _ reachable_beforeCapture Hmove eq_refl)
    as (gs & cp & dice & tokens & i & t & gs' & result
        & Hpass & _ & Hget' & _ & Hrest).
  destruct Hpass as (Hget & Hcp & _).
  vm_compute in Hget. injection Hget as <-.
  vm_compute in Hcp. injection Hcp as <-.
  cbv zeta in Hrest. destruct Hrest as (_ & _ & _ & Hpt & _).
  destruct (Hpt RED 0 (mkTokenPosition "RT1" "G05") eq_refl) as [_ Hat].
  exists gs'. split; [exact Hget'|]. exact Hat.
Defined.

(** ** Reconnection *)

(** On a new instance [cancelDisconnectionTimer] finds no timer and clears
    no timeout. *)
Lemma cancel_on_new_instance (pid : string) (pending : gmap nat (string * string)) :
  Reconnection.cancelDisconnectionTimer Reconnection.newReconnectionService pid pending
  = (Reconnection.newReconnectionService, pending).
Proof.
  unfold Reconnection.cancelDisconnectionTimer, Reconnection.newReconnectionService.
  simpl. now rewrite lookup_empty.
Qed.

(** The handler cancels on an instance of its own: whatever the process
    holds, every timeout stays pending. *)
Lemma reconnect_clears_no_timeout (w : Reconnection.World) (socketId pid room : string)
  (now : nat) :
  Reconnection.timeouts (fst (Reconnection.reconnect_player w socketId pid room now))
  = Reconnection.timeouts w.
Proof.
  unfold Reconnection.reconnect_player.
  destruct (_ || _); [reflexivity|].
  destruct (negb _); [reflexivity|].
  rewrite cancel_on_new_instance. simpl.
  unfold Reconnection.updateSocketId, Reconnection.getPlayerSession. simpl.
  now destruct (Reconnection.sessions w !! pid).
Qed.

(** C4, on the code. Ann disconnects and reconnects within the grace period:
    the reconnect succeeds, her session is bound to the new socket, her status
    is CONNECTED again and the order of the players is kept; but the timeout
    of her disconnection is still pending, and when it expires she is removed
    from the players and her session is deleted, so that a later reconnect
    finds no active session. *)
Theorem reconnected_player_is_removed :
  (exists gs, snd (Reconnection.reconnect_player Scenario.dropped "socket-3" "p1"
                                                  Scenario.room 30)
              = Reconnection.Reconnected (Some gs))
  /\ (exists gs, getGameState (Reconnection.games Scenario.reconnected) Scenario.room
                 = Some gs
                 /\ playerId <$> players gs = ["p1"; "p2"]
                 /\ connectionStatus <$> players gs = [CONNECTED; CONNECTED])
  /\ ps_socketId <$> Reconnection.getPlayerSession Scenario.reconnected "p1"
     = Some "socket-3"
  /\ Reconnection.timeouts Scenario.dropped !! 0 = Some ("p1", Scenario.room)
  /\ Reconnection.timeouts Scenario.reconnected !! 0 = Some ("p1", Scenario.room)
  /\ (exists gs, getGameState
                   (Reconnection.games (Reconnection.expire Scenario.reconnected 0))
                   Scenario.room = Some gs
                 /\ playerId <$> players gs = ["p2"])
  /\ Reconnection.getPlayerSession (Reconnection.expire Scenario.reconnected 0) "p1"
     = None
  /\ snd (Reconnection.reconnect_player (Reconnection.expire Scenario.reconnected 0)
                                         "socket-4" "p1" Scenario.room 90)
     = Reconnection.ReconnectError "No active session found for this room".
Proof.
  split; [eexists; vm_compute; reflexivity|].
  split; [eexists; split; [vm_compute; reflexivity|split; reflexivity]|].
  split; [vm_compute; reflexivity|]. split; [vm_compute; reflexivity|].
  split; [vm_compute; reflexivity|].
  split; [eexists; split; [vm_compute; reflexivity|reflexivity]|].
  split; vm_compute; reflexivity.
Qed.

(** * Further properties of the game service *)

(** ** What one operation stores *)

Section StoreSteps.

Lemma save_lookup (st : Store) (gs gs' : GameState) (key : string) :
  saveGameState st gs !! key = Some gs' -> gs' = gs \/ st !! key = Some gs'.
Proof.
  unfold saveGameState. intros H.
  destruct (decide (gameKey (roomCode gs) = key)) as [<-|Hne].
  - rewrite lookup_insert_eq in H. left. congruence.
  - rewrite lookup_insert_ne in H by assumption. now right.
Qed.

Lemma gameKey_inj (room room' : string) : gameKey room = gameKey room' -> room = room'.
Proof. unfold gameKey, GAME_STATE_PREFIX. intros H. simpl in H. now injection H. Qed.

Lemma save_other_room (st : Store) (gs : GameState) (room' : string) :
  roomCode gs <> room' ->
  getGameState (saveGameState st gs) room' = getGameState st room'.
Proof.
  intros Hne. unfold getGameState, saveGameState. apply lookup_insert_ne.
  intros H. apply gameKey_inj in H. contradiction.
Qed.

Lemma switchTurn_fst (st : Store) (room : string) :
  fst (switchTurn st room) = st
  \/ exists gs next,
       getGameState st room = Some gs
       /\ nextPlayerIndex gs = Returned next
       /\ fst (switchTurn st room) = saveGameState st (turnSwitched next gs).
Proof.
  unfold switchTurn. destruct (getGameState st room) as [gs|] eqn:Hget; [|now left].
  destruct (nextPlayerIndex gs) as [next|why] eqn:Hnext; [|now left].
  right. exists gs, next. auto.
Qed.

Lemma skipByRoll_fst (st : Store) (room : string) (dice : nat) :
  fst (skipByRoll st room dice) = fst (switchTurn st room).
Proof. unfold skipByRoll. now destruct (switchTurn st room) as [st' [r|why]]. Qed.

Lemma rollDice_fst (st : Store) (room pid : string) (dice : nat) :
  fst (rollDice st room pid dice) = st
  \/ (fst (rollDice st room pid dice) = fst (switchTurn st room)
      /\ exists gs, getGameState st room = Some gs /\ phase gs = ROLLING)
  \/ exists gs k,
       getGameState st room = Some gs
       /\ phase gs = ROLLING
       /\ fst (rollDice st room pid dice)
          = saveGameState st
              (set_phase MOVING (set_diceValue (Some dice) (set_consecutiveSixes k gs))).
Proof.
  unfold rollDice. destruct (getGameState st room) as [gs|] eqn:Hget; [|now left].
  destruct (players gs !! currentPlayerIndex gs) as [cp|]; [|now left].
  destruct (negb (String.eqb (playerId cp) pid)); [now left|].
  destruct (bool_decide (phase gs = ROLLING)) eqn:Hph; [|now left].
  apply bool_decide_eq_true in Hph. simpl.
  destruct (_ =? 3)%nat; [right; left; rewrite skipByRoll_fst; eauto|].
  destruct (checkValidMoves _ _ _) as [[|]|]; [| |now left].
  - right. right. eexists. eexists. eauto.
  - right. left. rewrite skipByRoll_fst. eauto.
Qed.

Lemma save_inj (st : Store) (a b : GameState) :
  saveGameState st a = saveGameState st b -> roomCode a = roomCode b -> a = b.
Proof.
  intros Heq Hroom.
  assert (saveGameState st a !! gameKey (roomCode a) = Some a) as Ha
    by apply lookup_insert_eq.
  rewrite Heq, Hroom in Ha. unfold saveGameState in Ha.
  rewrite lookup_insert_eq in Ha. congruence.
Qed.

Lemma applyMove_saved (st : Store) (gs : GameState) (cp : Player) (dice : nat)
  (tokens : list TokenPosition) (i : nat) (t : TokenPosition) (tid target : string)
  (now : nat) :
  applyMove st gs cp dice tokens i t tid target now = (st, Stopped IllTyped)
  \/ exists gs' result,
       applyMove st gs cp dice tokens i t tid target now
       = (saveGameState st gs', Returned (mkMoveResponse true (Some result) None))
       /\ roomCode gs' = roomCode gs.
Proof.
  unfold applyMove. destruct (if captured _ then _ else _) as [[tbl last]|];
    [|now left].
  right. eexists. eexists. split; [reflexivity|].
  set (gs1 := set_tokenPositions tbl gs).
  destruct (recordWin_fields now (currentPlayerIndex gs) cp gs1) as (H1 & _).
  destruct (checkWinCondition _ _); simpl; [exact H1|reflexivity].
Qed.

Lemma moveToken_fst (st : Store) (room pid tid target : string) (now : nat) :
  fst (moveToken st room pid tid target now) = st
  \/ exists gs cp dice tokens i t gs' result,
       passes st room pid tid target gs cp dice tokens i t
       /\ applyMove st gs cp dice tokens i t tid target now
          = (saveGameState st gs', Returned (mkMoveResponse true (Some result) None))
       /\ roomCode gs' = roomCode gs
       /\ moveToken st room pid tid target now
          = (saveGameState st gs', Returned (mkMoveResponse true (Some result) None)).
Proof.
  destruct (moveToken st room pid tid target now) as [st' out] eqn:Hmove.
  destruct (moveToken_inv _ _ _ _ _ _ _ _ Hmove)
    as [[-> _]|(gs & cp & dice & tokens & i & t & Hpass & Happ)]; [now left|].
  destruct (applyMove_saved st gs cp dice tokens i t tid target now)
    as [Hill|(gs' & result & Hok & Hroom)].
  - rewrite Hill in Happ. injection Happ as <- _. now left.
  - right. exists gs, cp, dice, tokens, i, t, gs', result.
    rewrite Hok in Happ. injection Happ as <- <-. auto.
Qed.

Lemma status_fst (st : Store) (room pid : string) (status : ConnectionStatus) :
  Reconnection.updatePlayerConnectionStatus st room pid status = st
  \/ exists gs i,
       getGameState st room = Some gs
       /\ Reconnection.updatePlayerConnectionStatus st room pid status
          = saveGameState st
              (set_players (alter (set_connectionStatus status) i (players gs)) gs).
Proof.
  unfold Reconnection.updatePlayerConnectionStatus.
  destruct (getGameState st room) as [gs|] eqn:Hget; [|now left].
  destruct (findIndex _ _) as [i|]; [|now left].
  right. exists gs, i. auto.
Qed.

(** The state [handlePermanentDisconnection] saves when players remain. *)
Lemma removal_fst (w : Reconnection.World) (pid room : string) :
  Reconnection.games (Reconnection.handlePermanentDisconnection w pid room)
  = Reconnection.games w
  \/ exists gs,
       getGameState (Reconnection.games w) room = Some gs
       /\ 0 < length (players (Reconnection.removePlayer pid gs))
       /\ Reconnection.games (Reconnection.handlePermanentDisconnection w pid room)
          = saveGameState (Reconnection.games w)
              (if (length (players (Reconnection.removePlayer pid gs))
                   <=? currentPlayerIndex gs)%nat
               then set_currentPlayerIndex 0 (Reconnection.removePlayer pid gs)
               else Reconnection.removePlayer pid gs).
Proof.
  unfold Reconnection.handlePermanentDisconnection.
  destruct (getGameState (Reconnection.games w) room) as [gs|] eqn:Hget; [|now left].
  simpl. destruct (Nat.ltb_spec 0 (length (filter (fun p => playerId p <> pid)
                                                (players gs)))) as [Hpos|_];
    [|now left].
  right. exists gs. auto.
Qed.

(** Induction over the stored states: a property of the initial state that
    each operation carries from the state it loads to the state it saves
    holds of every stored state. *)
Lemma stored_invariant (P : GameState -> Prop) :
  (forall room ps now, P (initialGameState room ps now)) ->
  (forall gs dice k, wf_state gs -> P gs -> phase gs = ROLLING ->
     P (set_phase MOVING (set_diceValue (Some dice) (set_consecutiveSixes k gs)))) ->
  (forall gs next, wf_state gs -> P gs -> nextPlayerIndex gs = Returned next ->
     P (turnSwitched next gs)) ->
  (forall st room pid tid target gs cp dice tokens i t now gs' result,
     wf_state gs -> P gs -> roomCode gs = room ->
     passes st room pid tid target gs cp dice tokens i t ->
     applyMove st gs cp dice tokens i t tid target now
     = (saveGameState st gs', Returned (mkMoveResponse true (Some result) None)) ->
     roomCode gs' = room ->
     P gs') ->
  (forall gs i status, wf_state gs -> P gs ->
     P (set_players (alter (set_connectionStatus status) i (players gs)) gs)) ->
  (forall gs pid, wf_state gs -> P gs ->
     0 < length (players (Reconnection.removePlayer pid gs)) ->
     P (if (length (players (Reconnection.removePlayer pid gs))
            <=? currentPlayerIndex gs)%nat
        then set_currentPlayerIndex 0 (Reconnection.removePlayer pid gs)
        else Reconnection.removePlayer pid gs)) ->
  forall gs, stored gs -> P gs.
Proof.
  intros Hinit Hroll Hswitch Hmove Hstatus Hremove.
  assert (forall st, reachable st -> forall key gs, st !! key = Some gs -> P gs) as Hall.
  { assert (forall st room, reachable st ->
              (forall key gs, st !! key = Some gs -> P gs) ->
              forall key gs, fst (switchTurn st room) !! key = Some gs -> P gs) as Hsw.
    { intros st room Hr IH key gs Hl.
      destruct (switchTurn_fst st room) as [Heq|(gs0 & next & Hget & Hnext & Heq)];
        rewrite Heq in Hl; [eauto|].
      apply save_lookup in Hl as [->|Hl]; [|eauto].
      destruct (wf_store_get _ _ _ (reachable_wf _ Hr) Hget) as [_ Hwf].
      apply Hswitch; eauto. }
    induction 1 as [|st room ps now Hr IH|st room pid dice Hr IH
                    |st room pid tid target now Hr IH|st room Hr IH
                    |st room pid status Hr IH|w pid room Hr IH|st room Hr IH];
      intros key gs Hl.
    - rewrite lookup_empty in Hl. discriminate.
    - simpl in Hl. apply save_lookup in Hl as [->|Hl]; eauto.
    - destruct (rollDice_fst st room pid dice)
        as [Heq|[[Heq _]|(gs0 & k & Hget & Hph & Heq)]]; rewrite Heq in Hl.
      + eauto.
      + eapply Hsw; eauto.
      + apply save_lookup in Hl as [->|Hl]; [|eauto].
        destruct (wf_store_get _ _ _ (reachable_wf _ Hr) Hget) as [_ Hwf].
        apply Hroll; eauto.
    - destruct (moveToken_fst st room pid tid target now)
        as [Heq|(gs0 & cp & dice & tokens & i & t & gs' & result
                 & Hpass & Happ & Hrc & Heq)];
        rewrite Heq in Hl; [eauto|].
      simpl in Hl. apply save_lookup in Hl as [->|Hl]; [|eauto].
      pose proof Hpass as (Hget & _).
      destruct (wf_store_get _ _ _ (reachable_wf _ Hr) Hget) as [Hroom Hwf].
      eapply Hmove; eauto. congruence.
    - eapply Hsw; eauto.
    - destruct (status_fst st room pid status) as [Heq|(gs0 & i & Hget & Heq)];
        rewrite Heq in Hl; [eauto|].
      apply save_lookup in Hl as [->|Hl]; [|eauto].
      destruct (wf_store_get _ _ _ (reachable_wf _ Hr) Hget) as [_ Hwf].
      apply Hstatus; eauto.
    - destruct (removal_fst w pid room) as [Heq|(gs0 & Hget & Hpos & Heq)];
        rewrite Heq in Hl; [eauto|].
      apply save_lookup in Hl as [->|Hl]; [|eauto].
      destruct (wf_store_get _ _ _ (reachable_wf _ Hr) Hget) as [_ Hwf].
      apply Hremove; eauto.
    - unfold deleteGameState in Hl. apply lookup_delete_Some in Hl as [_ Hl]. eauto. }
  intros gs (st & room & Hr & Hget). eapply Hall; eauto.
Qed.

(** The state a move saves, from the state it loaded. *)
Lemma applyMove_structure (st : Store) (gs gs' : GameState) (cp : Player) (dice : nat)
  (tokens : list TokenPosition) (i : nat) (t : TokenPosition) (tid target : string)
  (now : nat) (resp : MoveResponse) :
  tableGet (color cp) (tokenPositions gs) = Some tokens ->
  applyMove st gs cp dice tokens i t tid target now
  = (saveGameState st gs', Returned resp) ->
  roomCode gs' = roomCode gs ->
  exists tbl (win : bool),
    shape tbl = shape (tokenPositions gs)
    /\ gs' = set_diceValue None
               (set_phase ROLLING
                  (if win
                   then recordWin now (currentPlayerIndex gs) cp
                                  (set_tokenPositions tbl gs)
                   else set_tokenPositions tbl gs)).
Proof.
  intros Htok Happ Hroom. unfold applyMove in Happ.
  set (moved := tableSet (color cp) _ (tokenPositions gs)) in *.
  assert (shape moved = shape (tokenPositions gs)) as Hmoved.
  { eapply tableSet_shape; [exact Htok|apply alter_positionId_ids]. }
  destruct (if captured _ then _ else _) as [[tbl last]|] eqn:Hres; [|discriminate].
  assert (shape tbl = shape (tokenPositions gs)) as Hshape.
  { destruct (captured _).
    - apply resolveCaptures_shape in Hres. congruence.
    - injection Hres as <- _. exact Hmoved. }
  exists tbl, (checkWinCondition (color cp) (default [] (tableGet (color cp) tbl))).
  split; [exact Hshape|].
  injection Happ as Hsave _. symmetry. apply (save_inj st); [exact Hsave|].
  rewrite Hroom.
  destruct (recordWin_fields now (currentPlayerIndex gs) cp (set_tokenPositions tbl gs))
    as (H1 & _).
  destruct (checkWinCondition _ _); simpl; [exact H1|reflexivity].
Qed.

Lemma tokenAt_shape (tbl tbl' : TokenTable) (c : PlayerColor) (k : nat) :
  shape tbl' = shape tbl -> is_Some (tokenAt tbl' c k) -> is_Some (tokenAt tbl c k).
Proof.
  revert tbl'. induction tbl as [|[c1 toks] tbl IH]; intros [|[c1' toks'] tbl'] Hs;
    try discriminate; [auto|].
  injection Hs as Hc Hids Hrest. subst c1'. unfold tokenAt. simpl.
  destruct (decide (c1 = c)) as [->|Hne]; simpl.
  - intros [tok Htok]. apply lookup_lt_is_Some_2.
    apply lookup_lt_Some in Htok.
    apply (f_equal length) in Hids. rewrite !length_fmap in Hids. lia.
  - apply IH. exact Hrest.
Qed.

Lemma initial_table_entries (ps : list Player) (c : PlayerColor)
  (tokens : list TokenPosition) :
  tableGet c (initialTokenPositions ps) = Some tokens -> tokens = baseTokens c.
Proof.
  unfold initialTokenPositions.
  assert (forall tbl : TokenTable,
            (forall c toks, tableGet c tbl = Some toks -> toks = baseTokens c) ->
            forall c toks,
              tableGet c (fold_left (fun tbl player =>
                                       tableSet (color player) (baseTokens (color player))
                                                tbl) ps tbl) = Some toks ->
              toks = baseTokens c) as H.
  { induction ps as [|p ps IH]; intros tbl Htbl c0 toks; simpl; [apply Htbl|].
    apply IH. intros c1 toks1. rewrite tableGet_tableSet.
    destruct (decide (c1 = color p)) as [->|_]; [congruence|apply Htbl]. }
  apply H. intros c0 toks0. discriminate.
Qed.

Lemma initial_table_has (ps : list Player) (p : Player) :
  p ∈ ps -> tableGet (color p) (initialTokenPositions ps) = Some (baseTokens (color p)).
Proof.
  unfold initialTokenPositions.
  assert (forall tbl : TokenTable,
            p ∈ ps \/ is_Some (tableGet (color p) tbl) ->
            is_Some (tableGet (color p)
                       (fold_left (fun tbl player =>
                                     tableSet (color player) (baseTokens (color player))
                                              tbl) ps tbl))) as H.
  { induction ps as [|q ps IH]; intros tbl [Hp|Hs]; simpl.
    - inversion Hp.
    - exact Hs.
    - apply IH. apply elem_of_cons in Hp as [->|Hp]; [right|now left].
      rewrite tableGet_tableSet. rewrite decide_True by reflexivity. eauto.
    - apply IH. right. rewrite tableGet_tableSet.
      destruct (decide (color p = color q)); eauto. }
  intros Hin. destruct (H [] (or_introl Hin)) as [toks Htoks].
  rewrite Htoks. f_equal. exact (initial_table_entries ps _ _ Htoks).
Qed.

Lemma canMoveToken_target_on_path (pos : string) (dice : nat) (c : PlayerColor)
  (target : string) :
  canMoveToken pos dice c = MoveOk target -> target ∈ getTokenPath c.
Proof.
  unfold canMoveToken. destruct (isTokenInBase pos).
  - destruct (dice =? 6)%nat; [|discriminate]. intros [= <-].
    destruct c; apply (bool_decide_unpack _); vm_compute; exact I.
  - destruct (indexOf pos (getTokenPath c)) as [i|]; [|discriminate].
    destruct (Nat.leb_spec (length (getTokenPath c)) (i + dice)) as [|Hlt];
      [discriminate|].
    intros [= <-]. destruct (lookup_lt_is_Some_2 _ _ Hlt) as [x Hx].
    rewrite Hx. simpl. eapply list_elem_of_lookup_2; eauto.
Qed.

End StoreSteps.
